(** * openvoicechat/stt/base.py: the listening and interruption orchestrator

  A shallow embedding of [BaseEar] and a verification of its turn-taking
  protocol: the batch loop [_listen], the streaming loop [_listen_stream],
  the helper [_sim_transcribe_stream] and the interruption filter
  [interrupt_listen].

  The collaborators of the class (audio capture, the speech-to-text model,
  the sentence segmenter, the logger) are outside the repository's core.
  They are functions over an abstract state of the outside world, so every
  theorem quantifies over all their behaviours. *)

From Stdlib Require Import ZArith List Bool Ascii String Lia.
From Stdlib Require Import Uint63 Floats DecimalString.
Import ListNotations.

Local Open Scope string_scope.
Local Open Scope list_scope.

(** ** Python values and control outcomes *)

Module Py.

(** Exceptions that can occur in the modelled code. [OtherError] stands for
    any exception a collaborator raises. *)
Inductive exn : Type :=
| NotImplementedError (msg : string)
| UnboundLocalError (var : string)
| OtherError (tag : string).

(** What a called function hands back to its caller. *)
Inductive res (A : Type) : Type :=
| Ok (a : A)
| Exn (e : exn).
Arguments Ok {A} a.
Arguments Exn {A} e.

(** How a call of the orchestrator ends.  [Blocks]: the calling thread
    waits forever (a [Queue.get] on a queue nobody writes to any more, or a
    [join] on a thread that never ends).  [OutOfFuel] belongs to the model
    only: the iteration bound given to an unbounded [while] was reached. *)
Inductive outcome (A : Type) : Type :=
| Return (a : A)
| Raise (e : exn)
| Blocks
| OutOfFuel.
Arguments Return {A} a.
Arguments Raise {A} e.
Arguments Blocks {A}.
Arguments OutOfFuel {A}.

(** The values [interrupt_listen] can return: [False], a [str], or the
    [None] of a function body that ends without [return]. *)
Inductive value : Type :=
| VBool (b : bool)
| VStr (s : string)
| VNone.

(** Python's truth value of an object. *)
Definition truthy (v : value) : bool :=
  match v with
  | VBool b => b
  | VStr s => negb (String.eqb s "")
  | VNone => false
  end.

(** [str(n)] for an [int]. *)
Definition str_int (n : Z) : string := NilEmpty.string_of_int (Z.to_int n).

End Py.
Import Py.

(** ** Text normalisation: [re.sub(r"[^\w\s]", "", text).lower().strip()]

  A [str] is modelled by [string]; each [ascii] is one code point in
  0..255, so the texts of the model are the Latin-1 ones.  The classes
  below are Python's for these code points. *)

Module Text.

Definition code (c : ascii) : N := N_of_ascii c.

Definition between (lo hi : N) (c : ascii) : bool :=
  (lo <=? code c)%N && (code c <=? hi)%N.

(** [str.isspace] on one character, also the class [\s] of [re] on [str]
    patterns: TAB..CR, FS..US, space, NEL, NBSP. *)
Definition isspace (c : ascii) : bool :=
  between 9 13 c || between 28 32 c
  || (code c =? 133)%N || (code c =? 160)%N.

(** [str.isalnum] on one character. *)
Definition isalnum (c : ascii) : bool :=
  between 48 57 c || between 65 90 c || between 97 122 c
  || (code c =? 170)%N || between 178 179 c || (code c =? 181)%N
  || between 185 186 c || between 188 190 c
  || between 192 214 c || between 216 246 c || between 248 255 c.

(** The class [\w] of [re]: alphanumeric or the underscore. *)
Definition isword (c : ascii) : bool :=
  isalnum c || (code c =? 95)%N.

Fixpoint filter_chars (keep : ascii -> bool) (s : string) : string :=
  match s with
  | EmptyString => EmptyString
  | String c s' =>
      if keep c then String c (filter_chars keep s') else filter_chars keep s'
  end.

(** [re.sub(r"[^\w\s]", "", text)]: every character that is neither a word
    character nor whitespace is deleted. *)
Definition strip_punctuation (s : string) : string :=
  filter_chars (fun c => isword c || isspace c) s.

Definition lower_char (c : ascii) : ascii :=
  if between 65 90 c || between 192 214 c || between 216 222 c
  then ascii_of_N (code c + 32)
  else c.

(** [str.lower]. *)
Fixpoint lower (s : string) : string :=
  match s with
  | EmptyString => EmptyString
  | String c s' => String (lower_char c) (lower s')
  end.

Fixpoint lstrip (s : string) : string :=
  match s with
  | EmptyString => EmptyString
  | String c s' => if isspace c then lstrip s' else s
  end.

(** Drops the trailing whitespace: a character is kept when it is not
    whitespace or when something is kept after it. *)
Fixpoint rstrip (s : string) : string :=
  match s with
  | EmptyString => EmptyString
  | String c s' =>
      match rstrip s' with
      | EmptyString => if isspace c then EmptyString else String c EmptyString
      | r => String c r
      end
  end.

(** [str.strip()]. *)
Definition strip (s : string) : string := rstrip (lstrip s).

Definition normalize (text : string) : string :=
  strip (lower (strip_punctuation text)).

(** [text in words] for a list of strings. *)
Definition member (text : string) (words : list string) : bool :=
  existsb (String.eqb text) words.

End Text.

(** ** Predicates on texts *)

(** Every character of [s] satisfies [p]. *)
Fixpoint all_chars (p : ascii -> bool) (s : string) : bool :=
  match s with
  | EmptyString => true
  | String c s' => p c && all_chars p s'
  end.

(** ** The platform: what the class takes from numpy, threading and the
    capture layer without defining it *)

Definition Bytes : Type := list Byte.byte.

(** How the run of a function that works on queues ends.  Called directly,
    [Failed e] is the exception the caller sees.  Run as the target of a
    [Thread], [Failed e] ends the thread: Python hands the exception to
    [threading.excepthook], and [join] returns normally. *)
Inductive completion : Type :=
| Done
| Failed (e : exn)
| Hangs.

Class Platform : Type := {
  (** state of everything outside the class: microphone, model, clock *)
  World : Type;
  (** one [np.float32] sample *)
  Sample : Type;
  Vad : Type;
  Listener : Type;
  Logger : Type;
  (** the object [VoiceActivityDetection()] builds *)
  VoiceActivityDetection : Vad;
  (** [(input_audio * (1 << 15)).astype(np.int16).tobytes()] *)
  astype_int16_tobytes : list Sample -> Bytes;
  (** [str] of a [float], as an f-string formats it *)
  repr_float : float -> string
}.

Section BaseEar.

Context {P : Platform}.

(** A one-dimensional [np.ndarray] of samples. *)
Definition Audio : Type := list Sample.

(** A [queue.Queue] holds its items oldest first; [None] is the sentinel. *)
Definition AudioQueue : Type := list (option Bytes).
Definition TranscriptionQueue : Type := list (option string).

(** The functions imported from [.utils] and the [pysbd] segmenter. *)
Record Collaborators : Type := {
  record_user :
    float -> Vad -> option Listener -> bool -> option Logger ->
    World -> res Audio * World;
  record_interruption :
    Vad -> float -> option Listener -> option Logger ->
    World -> res (option Audio) * World;
  segment : string -> World -> res (list string) * World
}.

(** An instance of [BaseEar] or of a subclass.  The two [_impl] fields are
    the subclass's overrides of [transcribe] and [transcribe_stream]; [None]
    means the method of [BaseEar] itself is the one that runs. *)
Record Ear : Type := {
  silence_seconds : float;
  not_interrupt_words : list string;
  vad : Vad;
  listener : option Listener;
  stream : bool;
  listen_interruptions : bool;
  logger : option Logger;
  transcribe_impl : option (Audio -> World -> res string * World);
  transcribe_stream_impl :
    option (AudioQueue -> TranscriptionQueue -> World ->
            completion * AudioQueue * TranscriptionQueue * World)
}.

(** [BaseEar.__init__], with the overrides of the subclass that calls it. *)
Definition init
  (silence_seconds : float) (not_interrupt_words : option (list string))
  (listener : option Listener) (stream listen_interruptions : bool)
  (logger : option Logger)
  (transcribe_impl : option (Audio -> World -> res string * World))
  (transcribe_stream_impl :
    option (AudioQueue -> TranscriptionQueue -> World ->
            completion * AudioQueue * TranscriptionQueue * World)) : Ear :=
  let not_interrupt_words :=
    match not_interrupt_words with
    | None => ["you"; "yes"; "yeah"; "hmm"]
    | Some ws => ws
    end in
  {| silence_seconds := silence_seconds;
     not_interrupt_words := not_interrupt_words;
     vad := VoiceActivityDetection;
     listener := listener;
     stream := stream;
     listen_interruptions := listen_interruptions;
     logger := logger;
     transcribe_impl := transcribe_impl;
     transcribe_stream_impl := transcribe_stream_impl |}.

Definition not_implemented : exn :=
  NotImplementedError "This method should be implemented by the subclass".

(** [self.transcribe(input_audio)] after method resolution. *)
Definition transcribe (self : Ear) (input_audio : Audio)
  : World -> res string * World :=
  match transcribe_impl self with
  | Some f => f input_audio
  | None => fun w => (Exn not_implemented, w)
  end.

(** [self.transcribe_stream(audio_queue, transcription_queue)] after method
    resolution; the queues come back as the method left them. *)
Definition transcribe_stream (self : Ear)
  (audio_queue : AudioQueue) (transcription_queue : TranscriptionQueue)
  : World -> completion * AudioQueue * TranscriptionQueue * World :=
  match transcribe_stream_impl self with
  | Some f => f audio_queue transcription_queue
  | None => fun w => (Failed not_implemented, audio_queue, transcription_queue, w)
  end.

(** ** Calls into the outside world, recorded *)

Inductive event : Type :=
| EvRecordUser (silence : float) (started : bool) (ret : res Audio)
| EvTranscribe (input_audio : Audio) (ret : res string)
| EvSegment (text : string) (ret : res (list string))
| EvRecordInterruption (record_seconds : float) (ret : res (option Audio))
| EvTranscribeStream (audio_queue : AudioQueue)
    (transcription_queue : TranscriptionQueue) (fin : completion)
| EvLog (name details further : string).

Record state : Type := {
  world : World;
  trace : list event
}.

(** The monad of the orchestrator's own thread. *)
Definition M (A : Type) : Type := state -> outcome A * state.

Definition ret {A} (a : A) : M A := fun st => (Return a, st).

Definition bind {A B} (m : M A) (k : A -> M B) : M B :=
  fun st =>
    match m st with
    | (Return a, st') => k a st'
    | (Raise e, st') => (Raise e, st')
    | (Blocks, st') => (Blocks, st')
    | (OutOfFuel, st') => (OutOfFuel, st')
    end.

Definition raise {A} (e : exn) : M A := fun st => (Raise e, st).
Definition out_of_fuel {A} : M A := fun st => (OutOfFuel, st).

Definition emit (ev : event) (st : state) : state :=
  {| world := world st; trace := trace st ++ [ev] |}.

(** [st] after the events [evs], with world [w]. *)
Definition after (st : state) (evs : list event) (w : World) : state :=
  {| world := w; trace := trace st ++ evs |}.

(** The state in world [w] in which nothing has been recorded yet. *)
Definition fresh (w : World) : state := {| world := w; trace := [] |}.

(** A synchronous call of a collaborator: the world moves on, the call and
    what it gave back are recorded, an exception goes on to the caller.  A
    collaborator called this way is taken to come back: it returns or it
    raises. *)
Definition call {A} (f : World -> res A * World) (mk : res A -> event) : M A :=
  fun st =>
    let '(r, w) := f (world st) in
    let st' := {| world := w; trace := trace st ++ [mk r] |} in
    match r with
    | Ok a => (Return a, st')
    | Exn e => (Raise e, st')
    end.

End BaseEar.

Notation "x <- m ;; k" := (bind m (fun x => k))
  (at level 61, m at next level, right associativity).
Notation "m ;;; k" := (bind m (fun _ => k))
  (at level 61, right associativity).

(** ** The methods of [BaseEar] *)

Section Methods.

Context {P : Platform}.
Variable self : Ear.
Variable ext : Collaborators.

Definition quote : string := String (ascii_of_nat 34) EmptyString.

(** [_log_event]: one record for the logger when there is one, nothing
    otherwise.  The record keeps the [extra] dictionary's two values. *)
Definition _log_event (name details further : string) : M unit :=
  fun st =>
    match logger self with
    | Some _ => (Return tt, emit (EvLog name details (quote ++ further ++ quote)) st)
    | None => (Return tt, st)
    end.

Definition call_transcribe (input_audio : Audio) : M string :=
  call (transcribe self input_audio) (EvTranscribe input_audio).

(** [Thread(target=self.transcribe_stream, args=(audio_queue,
    transcription_queue))], [start()] and at once [join()]: the caller waits
    for the target's end, whichever way it ends, and goes on with the
    transcription queue as the target left it. *)
Definition start_and_join_transcription
  (audio_queue : AudioQueue) (transcription_queue : TranscriptionQueue)
  : M TranscriptionQueue :=
  fun st =>
    let '(fin, _, tq, w) :=
      transcribe_stream self audio_queue transcription_queue (world st) in
    let st' :=
      {| world := w;
         trace := trace st ++ [EvTranscribeStream audio_queue tq fin] |} in
    match fin with
    | Hangs => (Blocks, st')
    | Done | Failed _ => (Return tq, st')
    end.

(** The reading loop [while True: _ = transcription_queue.get() ...] once
    every producer of the queue has ended: an empty queue blocks for ever. *)
Fixpoint read_until_sentinel (text : string)
  (transcription_queue : TranscriptionQueue) : outcome string :=
  match transcription_queue with
  | [] => Blocks
  | None :: _ => Return text
  | Some fragment :: rest => read_until_sentinel (text ++ fragment ++ " ") rest
  end.

Definition _sim_transcribe_stream (input_audio : Audio) : M string :=
  let audio_queue : AudioQueue := [] in
  let transcription_queue : TranscriptionQueue := [] in
  let input_buffer := astype_int16_tobytes input_audio in
  let audio_queue := audio_queue ++ [Some input_buffer] in
  let audio_queue := audio_queue ++ [None] in
  transcription_queue <-
    start_and_join_transcription audio_queue transcription_queue ;;
  fun st => (read_until_sentinel "" transcription_queue, st).

(** The local variables of [_listen]; [text] is unbound until the loop body
    has run once. *)
Record listen_vars : Type := {
  sentence_finished : bool;
  first : bool;
  audio : Audio;
  n : Z;
  text : option string
}.

(** One round of the loop.  [seg] is the segmenter built once before the
    loop by [pysbd.Segmenter(language="en", clean=False)]. *)
Definition listen_body (v : listen_vars) : M listen_vars :=
  new_audio <-
    call (record_user ext (silence_seconds self) (vad self) (listener self)
            (negb (first v)) (logger self))
         (EvRecordUser (silence_seconds self) (negb (first v))) ;;
  let audio := audio v ++ new_audio in
  _log_event "transcribing" "STT" "" ;;;
  text <- call_transcribe audio ;;
  _log_event "transcribed" "STT" text ;;;
  _log_event "segmenting" "STT" text ;;;
  let first := false in
  spans <- call (segment ext (text ++ " .")) (EvSegment (text ++ " .")) ;;
  if (1 <? List.length spans)%nat then
    _log_event "sentence boundary detected" "STT" text ;;;
    ret {| sentence_finished := true; first := first; audio := audio;
           n := n v; text := Some text |}
  else
    let n := (n v - 1)%Z in
    _log_event "no sentence boundary detected" "STT"
      (text ++ ". tries left: " ++ str_int n) ;;;
    ret {| sentence_finished := false; first := first; audio := audio;
           n := n; text := Some text |}.

(** [while not sentence_finished and n > 0: ...] *)
Fixpoint listen_loop (fuel : nat) (v : listen_vars) : M listen_vars :=
  if negb (sentence_finished v) && (0 <? n v)%Z then
    match fuel with
    | O => out_of_fuel
    | S fuel' => v' <- listen_body v ;; listen_loop fuel' v'
    end
  else ret v.

Definition listen_init : listen_vars :=
  {| sentence_finished := false; first := true; audio := [];
     n := 2; text := None |}.

(** [_listen].  The loop leaves after at most [n] rounds, so [n]'s initial
    value bounds it ([listen_loop_total] below). *)
Definition _listen : M string :=
  v <- listen_loop (Z.to_nat (n listen_init)) listen_init ;;
  match text v with
  | Some t => ret t
  | None => raise (UnboundLocalError "text")
  end.

(** [len(interruption_audio) / 16_000]: the true division of two [int]s,
    which for lengths below 2^53 is the float division of the operands. *)
Definition duration_of (interruption_audio : Audio) : float :=
  PrimFloat.div
    (PrimFloat.of_uint63 (Uint63.of_Z (Z.of_nat (List.length interruption_audio))))
    16000%float.

(** What one round of the loop of [interrupt_listen] decides. *)
Inductive loop_ctl : Type :=
| Continue (record_seconds : float)
| Break (v : value).

(** [self._sim_transcribe_stream(a) if self.stream else self.transcribe(a)] *)
Definition transcribe_window (interruption_audio : Audio) : M string :=
  if stream self then _sim_transcribe_stream interruption_audio
  else call_transcribe interruption_audio.

Definition interrupt_body (record_seconds : float) : M loop_ctl :=
  interruption_audio <-
    call (record_interruption ext (vad self) record_seconds (listener self)
            (logger self))
         (EvRecordInterruption record_seconds) ;;
  match interruption_audio with
  | None => ret (Break (VStr ""))
  | Some interruption_audio =>
      let duration := duration_of interruption_audio in
      _log_event "transcribing interruption" "STT"
        (repr_float duration ++ " seconds") ;;;
      text <- transcribe_window interruption_audio ;;
      _log_event "interruption transcribed" "STT" text ;;;
      let text := Text.normalize text in
      if Text.member text (not_interrupt_words self) then
        _log_event "not interruption" "STT" text ;;;
        ret (Continue (PrimFloat.sub record_seconds duration))
      else ret (Break (VStr text))
  end.

(** [while record_seconds > 0: ...]; falling out of the loop is the end of
    the function body, so the call gives [None]. *)
Fixpoint interrupt_loop (fuel : nat) (record_seconds : float) : M value :=
  if PrimFloat.ltb 0 record_seconds then
    match fuel with
    | O => out_of_fuel
    | S fuel' =>
        c <- interrupt_body record_seconds ;;
        match c with
        | Continue record_seconds' => interrupt_loop fuel' record_seconds'
        | Break v => ret v
        end
    end
  else ret VNone.

Definition interrupt_listen (fuel : nat) (record_seconds : float) : M value :=
  if negb (listen_interruptions self) then ret (VBool false)
  else interrupt_loop fuel record_seconds.

Definition default_record_seconds : float := 100%float.

(** The calls among recorded events: everything but the log records. *)
Definition is_call (ev : event) : bool :=
  match ev with
  | EvLog _ _ _ => false
  | _ => true
  end.

Definition calls (evs : list event) : list event := filter is_call evs.

(** The exception a recorded call raised in the orchestrator's thread. *)
Definition raised (ev : event) : option exn :=
  match ev with
  | EvRecordUser _ _ (Exn e) => Some e
  | EvTranscribe _ (Exn e) => Some e
  | EvSegment _ (Exn e) => Some e
  | EvRecordInterruption _ (Exn e) => Some e
  | _ => None
  end.


(** [k] rounds of the loop of [interrupt_listen] that all end in the
    not-interrupt branch, from budget [record_seconds]: the budget and the
    state after them. *)
Fixpoint false_alarms (k : nat) (record_seconds : float) (st : state)
  : option (float * state) :=
  match k with
  | O => Some (record_seconds, st)
  | S k' =>
      if PrimFloat.ltb 0 record_seconds then
        match interrupt_body record_seconds st with
        | (Return (Continue record_seconds'), st') =>
            false_alarms k' record_seconds' st'
        | _ => None
        end
      else None
  end.



End Methods.

(** ** Measures of a run *)

Section Measures.

Context {P : Platform}.

Definition is_capture (ev : event) : bool :=
  match ev with
  | EvRecordUser _ _ _ => true
  | _ => false
  end.

(** How many times [record_user] was called. *)
Definition captures (evs : list event) : nat :=
  List.length (filter is_capture evs).

(** The budgets that the calls of [record_interruption] were given, in the
    order of the calls. *)
Definition budgets (evs : list event) : list float :=
  flat_map (fun ev => match ev with
                      | EvRecordInterruption t _ => [t]
                      | _ => []
                      end) evs.

(** The windows that the calls of [record_interruption] gave back, in the
    order of the calls. *)
Definition windows_of (evs : list event) : list Audio :=
  flat_map (fun ev => match ev with
                      | EvRecordInterruption _ (Ok (Some a)) => [a]
                      | _ => []
                      end) evs.

(** The budget left of [record_seconds] after the windows, when each is
    charged its [len(audio) / 16_000] in turn. *)
Definition spend (record_seconds : float) (windows : list Audio) : float :=
  fold_left
    (fun t a =>
       PrimFloat.sub t
         (PrimFloat.div
            (PrimFloat.of_uint63 (Uint63.of_Z (Z.of_nat (List.length a))))
            16000%float))
    windows record_seconds.

(** The budget before each of the windows, under the same charge. *)
Fixpoint offered (record_seconds : float) (windows : list Audio) : list float :=
  match windows with
  | [] => []
  | a :: rest =>
      record_seconds
      :: offered
           (PrimFloat.sub record_seconds
              (PrimFloat.div
                 (PrimFloat.of_uint63 (Uint63.of_Z (Z.of_nat (List.length a))))
                 16000%float))
           rest
  end.

End Measures.

(** ** [_listen_stream]: the orchestrator and its two workers

    The capture worker ([record_user_stream]) and the transcription worker
    ([self.transcribe_stream]) run beside the orchestrator, so the method is
    a transition system: the orchestrator's steps follow the source line by
    line, the workers' steps are whatever a worker can do with the queues it
    was given.  Only the transcription worker writes the transcription
    queue and only the orchestrator reads it. *)

Module Stream.

(** Where the orchestrator stands in the body of [_listen_stream]. *)
Inductive pc : Type :=
| AtStartAudio
| AtStartTranscription
| AtGet (text : string)
| AtJoinAudio (text : string)
| AtJoinTranscription (text : string)
| Returned (text : string).

(** A [Thread]: created, started, or ended (its target returned or raised;
    an exception of the target ends the thread and goes no further). *)
Inductive thread : Type :=
| Unstarted
| Running
| Ended (how : res unit).

Record sys : Type := {
  main : pc;
  audio_thread : thread;
  transcription_thread : thread;
  audio_queue : list (option Bytes);
  transcription_queue : list (option string);
  (** every item ever put on the transcription queue, oldest first *)
  emitted : list (option string)
}.

Inductive action : Type :=
| Main
| CapturePut (chunk : option Bytes)
| CaptureEnd (how : res unit)
| TranscriberGet
| TranscriberPut (item : option string)
| TranscriberEnd (how : res unit).

(** After the two [Queue()] and the two [Thread(...)] constructors. *)
Definition init : sys :=
  {| main := AtStartAudio; audio_thread := Unstarted;
     transcription_thread := Unstarted; audio_queue := [];
     transcription_queue := []; emitted := [] |}.

Definition set_main (p : pc) (s : sys) : sys :=
  {| main := p; audio_thread := audio_thread s;
     transcription_thread := transcription_thread s;
     audio_queue := audio_queue s;
     transcription_queue := transcription_queue s; emitted := emitted s |}.

(** One step of the orchestrator; [None] when it has to wait. *)
Definition main_step (s : sys) : option sys :=
  match main s with
  | AtStartAudio =>
      Some {| main := AtStartTranscription; audio_thread := Running;
              transcription_thread := transcription_thread s;
              audio_queue := audio_queue s;
              transcription_queue := transcription_queue s;
              emitted := emitted s |}
  | AtStartTranscription =>
      Some {| main := AtGet ""; audio_thread := audio_thread s;
              transcription_thread := Running;
              audio_queue := audio_queue s;
              transcription_queue := transcription_queue s;
              emitted := emitted s |}
  | AtGet text =>
      match transcription_queue s with
      | [] => None
      | item :: rest =>
          let p :=
            match item with
            | None => AtJoinAudio text
            | Some fragment => AtGet (text ++ fragment ++ " ")
            end in
          Some {| main := p; audio_thread := audio_thread s;
                  transcription_thread := transcription_thread s;
                  audio_queue := audio_queue s;
                  transcription_queue := rest; emitted := emitted s |}
      end
  | AtJoinAudio text =>
      match audio_thread s with
      | Ended _ => Some (set_main (AtJoinTranscription text) s)
      | _ => None
      end
  | AtJoinTranscription text =>
      match transcription_thread s with
      | Ended _ => Some (set_main (Returned text) s)
      | _ => None
      end
  | Returned _ => None
  end.

Definition step (a : action) (s : sys) : option sys :=
  match a with
  | Main => main_step s
  | CapturePut chunk =>
      match audio_thread s with
      | Running =>
          Some {| main := main s; audio_thread := Running;
                  transcription_thread := transcription_thread s;
                  audio_queue := audio_queue s ++ [chunk];
                  transcription_queue := transcription_queue s;
                  emitted := emitted s |}
      | _ => None
      end
  | CaptureEnd how =>
      match audio_thread s with
      | Running =>
          Some {| main := main s; audio_thread := Ended how;
                  transcription_thread := transcription_thread s;
                  audio_queue := audio_queue s;
                  transcription_queue := transcription_queue s;
                  emitted := emitted s |}
      | _ => None
      end
  | TranscriberGet =>
      match transcription_thread s, audio_queue s with
      | Running, _ :: rest =>
          Some {| main := main s; audio_thread := audio_thread s;
                  transcription_thread := Running;
                  audio_queue := rest;
                  transcription_queue := transcription_queue s;
                  emitted := emitted s |}
      | _, _ => None
      end
  | TranscriberPut item =>
      match transcription_thread s with
      | Running =>
          Some {| main := main s; audio_thread := audio_thread s;
                  transcription_thread := Running;
                  audio_queue := audio_queue s;
                  transcription_queue := transcription_queue s ++ [item];
                  emitted := emitted s ++ [item] |}
      | _ => None
      end
  | TranscriberEnd how =>
      match transcription_thread s with
      | Running =>
          Some {| main := main s; audio_thread := audio_thread s;
                  transcription_thread := Ended how;
                  audio_queue := audio_queue s;
                  transcription_queue := transcription_queue s;
                  emitted := emitted s |}
      | _ => None
      end
  end.

(** A schedule is run action by action; it fails at an action that is not
    enabled. *)
Fixpoint run (schedule : list action) (s : sys) : option sys :=
  match schedule with
  | [] => Some s
  | a :: schedule' =>
      match step a s with
      | Some s' => run schedule' s'
      | None => None
      end
  end.

Definition is_ended (t : thread) : bool :=
  match t with
  | Ended _ => true
  | _ => false
  end.

(** Where the orchestrator has passed a [join], the joined thread has
    ended. *)
Definition joined (s : sys) : Prop :=
  match main s with
  | AtJoinTranscription _ => is_ended (audio_thread s) = true
  | Returned _ =>
      is_ended (audio_thread s) = true
      /\ is_ended (transcription_thread s) = true
  | _ => True
  end.

(** What the orchestrator has read so far, against what was emitted. *)
Definition reading (spaced : list string -> string) (s : sys) : Prop :=
  match main s with
  | AtStartAudio | AtStartTranscription =>
      transcription_thread s = Unstarted
      /\ emitted s = transcription_queue s
  | AtGet text =>
      exists fragments,
        text = spaced fragments
        /\ emitted s = map Some fragments ++ transcription_queue s
  | AtJoinAudio text | AtJoinTranscription text | Returned text =>
      exists fragments,
        text = spaced fragments
        /\ emitted s = map Some fragments ++ None :: transcription_queue s
  end.




End Stream.

(** ** What the methods build from fragments *)

(** The text both reading loops accumulate with [text += _ + " "]: every
    fragment followed by one space. *)
Fixpoint spaced (fragments : list string) : string :=
  match fragments with
  | [] => ""
  | f :: rest => f ++ " " ++ spaced rest
  end.

(** The space-joined concatenation in the usual sense, [" ".join(fragments)]:
    the reading of the specification's words, to compare [spaced] with. *)
Definition space_joined (fragments : list string) : string :=
  String.concat " " fragments.

(** The plain concatenation of the fragments, [str.join] with no separator:
    again the specification's words. *)
Definition concatenated (fragments : list string) : string :=
  String.concat "" fragments.

(** ** A platform and collaborators to evaluate the model on *)

Module Demo.

(** Every sample is the silent one, 0.0, whose 16-bit encoding is two zero
    bytes; the world counts the captures made so far. *)
#[export] Instance platform : Platform := {|
  World := nat;
  Sample := unit;
  Vad := unit;
  Listener := unit;
  Logger := unit;
  VoiceActivityDetection := tt;
  astype_int16_tobytes := flat_map (fun _ => [Byte.x00; Byte.x00]);
  repr_float := fun _ => "<float>"
|}.

Definition silence (samples : nat) : Audio := repeat tt samples.

(** Captures of one sample; interruption windows of one second, or none
    when [window] is [false]; a segmenter that answers [spans]. *)
Definition collaborators (window : bool) (spans : string -> list string)
  : Collaborators :=
  {| record_user := fun _ _ _ _ _ w => (Ok (silence 1), S w);
     record_interruption := fun _ _ _ _ w =>
       (Ok (if window then Some (silence (16 * 1000)) else None), S w);
     segment := fun t w => (Ok (spans t), w) |}.

Definition one_span (t : string) : list string := [t].
Definition two_spans (t : string) : list string := ["Done."; "."].

(** A subclass whose model always hears [reply]; in streaming it emits the
    reply as one fragment, then the sentinel. *)
Definition ear (stream : bool) (lg : option unit) (reply : string) : Ear :=
  init 2%float None None stream true lg
    (Some (fun _ w => (Ok reply, w)))
    (Some (fun _ tq w => (Done, [], tq ++ [Some reply; None], w))).

(** The same with interruption listening switched off. *)
Definition deaf_ear : Ear :=
  init 2%float None None false false None
    (Some (fun _ w => (Ok "stop", w))) None.

(** A subclass whose streaming model emits two fragments and the sentinel. *)
Definition two_fragment_ear : Ear :=
  init 2%float None None true true None None
    (Some (fun _ tq w => (Done, [], tq ++ [Some "a"; Some "b"; None], w))).


(** Interruption captures that give windows of half a second. *)
Definition half_second_windows : Collaborators :=
  {| record_user := fun _ _ _ _ _ w => (Ok (silence 1), S w);
     record_interruption := fun _ _ _ _ w =>
       (Ok (Some (silence (8 * 1000))), S w);
     segment := fun t w => (Ok (one_span t), w) |}.

(** Interruption captures that give a window without a single sample. *)
Definition empty_windows : Collaborators :=
  {| record_user := fun _ _ _ _ _ w => (Ok (silence 1), S w);
     record_interruption := fun _ _ _ _ w => (Ok (Some (silence 0)), S w);
     segment := fun t w => (Ok (one_span t), w) |}.

(** The example of the specification: the model hears "Hello there" in the
    first capture and "Hello there, how are you" in the two captures
    together, and only the second has two spans. *)
Definition hello_ear : Ear :=
  init 2%float None None false true None
    (Some (fun a w =>
       (Ok (if (List.length a =? 1)%nat then "Hello there"
            else "Hello there, how are you"), w)))
    None.

Definition hello_spans (t : string) : list string :=
  if String.eqb t "Hello there ." then [t]
  else ["Hello there, how are you"; "."].

(** [BaseEar] itself: neither capability is provided. *)
Definition base_ear (stream : bool) : Ear :=
  init 2%float None None stream true None None None.

Definition start : state := {| world := O; trace := [] |}.

(** A schedule of [_listen_stream]: the workers are started, the
    transcription worker emits "a", "b", the sentinel and "late", both
    workers end, and the orchestrator reads, joins and returns. *)
Definition schedule : list Stream.action :=
  [Stream.Main; Stream.Main;
   Stream.CapturePut (Some []); Stream.TranscriberGet;
   Stream.TranscriberPut (Some "a"); Stream.Main;
   Stream.CapturePut None; Stream.CaptureEnd (Ok tt);
   Stream.TranscriberPut (Some "b"); Stream.TranscriberPut None;
   Stream.TranscriberPut (Some "late"); Stream.TranscriberEnd (Ok tt);
   Stream.Main; Stream.Main; Stream.Main; Stream.Main].

(** The state that schedule ends in. *)
Definition final : Stream.sys :=
  {| Stream.main := Stream.Returned "a b ";
     Stream.audio_thread := Stream.Ended (Ok tt);
     Stream.transcription_thread := Stream.Ended (Ok tt);
     Stream.audio_queue := [None];
     Stream.transcription_queue := [Some "late"];
     Stream.emitted := [Some "a"; Some "b"; None; Some "late"] |}.

(** A schedule in which the transcription worker raises at once, as the
    [transcribe_stream] of [BaseEar] does, and the state it ends in. *)
Definition dead_schedule : list Stream.action :=
  [Stream.Main; Stream.Main;
   Stream.TranscriberEnd
     (Exn (NotImplementedError
             "This method should be implemented by the subclass"));
   Stream.CapturePut None; Stream.CaptureEnd (Ok tt)].

Definition dead : Stream.sys :=
  {| Stream.main := Stream.AtGet "";
     Stream.audio_thread := Stream.Ended (Ok tt);
     Stream.transcription_thread :=
       Stream.Ended
         (Exn (NotImplementedError
                 "This method should be implemented by the subclass"));
     Stream.audio_queue := [None];
     Stream.transcription_queue := [];
     Stream.emitted := [] |}.

(** The state after the one call of a model that hears [reply] in the
    window captured first. *)
Definition heard (reply : string) : state :=
  {| world := 1%nat;
     trace := [EvTranscribe (silence (16 * 1000)) (Ok reply)] |}.

End Demo.

(** * Verification *)

(** ** Text *)

Example normalize_yes : Text.normalize "Yes." = "yes".
Proof. reflexivity. Qed.

Example normalize_stop_now : Text.normalize "Stop now!" = "stop now".
Proof. reflexivity. Qed.

Example normalize_only_punctuation : Text.normalize "?!" = "".
Proof. reflexivity. Qed.

Lemma string_app_assoc (a b c : string) :
  ((a ++ b) ++ c)%string = (a ++ b ++ c)%string.
Proof. induction a as [|x a IH]; simpl; [reflexivity | now rewrite IH]. Qed.

Lemma spaced_app (xs ys : list string) :
  spaced (xs ++ ys) = (spaced xs ++ spaced ys)%string.
Proof.
  induction xs as [|x xs IH]; simpl.
  - reflexivity.
  - rewrite IH. now rewrite !string_app_assoc.
Qed.

Lemma append_empty_r (s : string) : (s ++ "")%string = s.
Proof. induction s as [|c s IH]; simpl; [reflexivity | now rewrite IH]. Qed.

Lemma spaced_snoc (xs : list string) (f : string) :
  spaced (xs ++ [f]) = (spaced xs ++ f ++ " ")%string.
Proof. rewrite spaced_app. reflexivity. Qed.

(** Two readings of a queue as fragments, sentinel, rest agree on the
    fragments: the first sentinel is where it is. *)
Lemma fragments_unique (xs ys : list string) (r1 r2 : list (option string)) :
  map Some xs ++ None :: r1 = map Some ys ++ None :: r2 -> xs = ys /\ r1 = r2.
Proof.
  revert ys. induction xs as [|x xs IH]; intros [|y ys] H; simpl in H.
  - injection H as ->. auto.
  - discriminate.
  - discriminate.
  - injection H as -> H. destruct (IH _ H) as [-> ->]. auto.
Qed.

(** ** What the normalisation gives *)

Lemma isspace_lower_char c : Text.isspace (Text.lower_char c) = Text.isspace c.
Proof. destruct c as [[] [] [] [] [] [] [] []]; reflexivity. Qed.

Lemma isword_not_isspace c : Text.isword c = true -> Text.isspace c = false.
Proof. destruct c as [[] [] [] [] [] [] [] []]; vm_compute; congruence. Qed.

Lemma strip_empty_iff s :
  Text.strip s = "" <-> all_chars Text.isspace s = true.
Proof.
  unfold Text.strip. induction s as [|c s IH]; simpl.
  - split; reflexivity.
  - destruct (Text.isspace c) eqn:Hc; simpl; [exact IH|].
    split; [|discriminate].
    destruct (Text.rstrip s); [rewrite Hc|]; discriminate.
Qed.

Lemma all_space_lower_filter s :
  all_chars Text.isspace
    (Text.lower (Text.filter_chars (fun c => Text.isword c || Text.isspace c) s))
  = all_chars (fun c => negb (Text.isword c)) s.
Proof.
  induction s as [|c s IH]; simpl; [reflexivity|].
  destruct (Text.isword c) eqn:Hw; simpl.
  - now rewrite isspace_lower_char, (isword_not_isspace c Hw).
  - destruct (Text.isspace c) eqn:Hs; simpl; [|exact IH].
    now rewrite isspace_lower_char, Hs, IH.
Qed.

(** X3. The normalised text is empty exactly when the transcription has no
    word character at all (it is empty, or made of punctuation and
    whitespace only). *)
Theorem normalize_empty_iff (t : string) :
  Text.normalize t = ""
  <-> all_chars (fun c => negb (Text.isword c)) t = true.
Proof.
  unfold Text.normalize, Text.strip_punctuation.
  rewrite strip_empty_iff. now rewrite all_space_lower_filter.
Qed.

Lemma filter_chars_app keep s1 s2 :
  Text.filter_chars keep (s1 ++ s2)
  = (Text.filter_chars keep s1 ++ Text.filter_chars keep s2)%string.
Proof.
  induction s1 as [|c s1 IH]; simpl; [reflexivity|].
  destruct (keep c); simpl; now rewrite IH.
Qed.

Lemma lower_app s1 s2 :
  Text.lower (s1 ++ s2) = (Text.lower s1 ++ Text.lower s2)%string.
Proof. induction s1 as [|c s1 IH]; simpl; [reflexivity | now rewrite IH]. Qed.

Lemma rstrip_app_space s : Text.rstrip (s ++ " ") = Text.rstrip s.
Proof.
  induction s as [|c s IH]; [reflexivity|].
  change (Text.rstrip (String c s ++ " "))
    with (match Text.rstrip (s ++ " ") with
          | EmptyString =>
              if Text.isspace c then EmptyString else String c EmptyString
          | r => String c r
          end).
  rewrite IH. reflexivity.
Qed.

Lemma strip_app_space s : Text.strip (s ++ " ") = Text.strip s.
Proof.
  unfold Text.strip. induction s as [|c s IH]; [reflexivity|].
  simpl. destruct (Text.isspace c); [exact IH|].
  apply (rstrip_app_space (String c s)).
Qed.

(** A space at the end of a transcription is lost in the normalisation. *)
Lemma normalize_app_space t : Text.normalize (t ++ " ") = Text.normalize t.
Proof.
  unfold Text.normalize, Text.strip_punctuation.
  rewrite filter_chars_app, lower_app. apply strip_app_space.
Qed.

Lemma spaced_space_joined f fragments :
  spaced (f :: fragments) = (space_joined (f :: fragments) ++ " ")%string.
Proof.
  revert f. induction fragments as [|g fs IH]; intros f.
  - reflexivity.
  - change (spaced (f :: g :: fs)) with (f ++ " " ++ spaced (g :: fs))%string.
    rewrite IH. unfold space_joined.
    change (String.concat " " (f :: g :: fs))
      with (f ++ " " ++ String.concat " " (g :: fs))%string.
    now rewrite !string_app_assoc.
Qed.

(** The text accumulated from fragments and their space-joined
    concatenation have the same normalisation. *)
Lemma normalize_spaced fragments :
  Text.normalize (spaced fragments) = Text.normalize (space_joined fragments).
Proof.
  destruct fragments as [|f fs]; [reflexivity|].
  rewrite spaced_space_joined. apply normalize_app_space.
Qed.

(** ** Workers that end by an exception *)




(** ** The orchestrator's thread *)

Section Proofs.

Context {P : Platform}.
Variable self : Ear.
Variable ext : Collaborators.

Lemma after_after st evs1 w1 evs2 w2 :
  after (after st evs1 w1) evs2 w2 = after st (evs1 ++ evs2) w2.
Proof. unfold after. simpl. now rewrite app_assoc. Qed.

Lemma after_nil st : after st [] (world st) = st.
Proof. destruct st. unfold after. simpl. now rewrite app_nil_r. Qed.

Lemma calls_app evs1 evs2 : calls (evs1 ++ evs2) = calls evs1 ++ calls evs2.
Proof. apply filter_app. Qed.

Lemma bind_return {A B} (m : M A) (k : A -> M B) st a st' :
  m st = (Return a, st') -> bind m k st = k a st'.
Proof. intros H. unfold bind. now rewrite H. Qed.

Lemma call_ok {A} (f : World -> res A * World) mk st a w :
  f (world st) = (Ok a, w) ->
  call f mk st = (Return a, after st [mk (Ok a)] w).
Proof. intros H. unfold call. now rewrite H. Qed.

Lemma call_exn {A} (f : World -> res A * World) mk st e w :
  f (world st) = (Exn e, w) ->
  call f mk st = (Raise e, after st [mk (Exn e)] w).
Proof. intros H. unfold call. now rewrite H. Qed.

(** A log record never fails, leaves the world alone and is no call. *)
Lemma log_event_run name details further st :
  exists evs,
    _log_event self name details further st = (Return tt, after st evs (world st))
    /\ calls evs = [] /\ Forall (fun ev => raised ev = None) evs.
Proof.
  unfold _log_event. destruct (logger self).
  - eexists. split; [reflexivity|]. split; [reflexivity|].
    repeat constructor.
  - exists []. rewrite after_nil. repeat split. constructor.
Qed.

(** Runs a log record inside a [bind] and names its events. *)
Ltac step_log evs Hc :=
  match goal with
  | |- context [bind (_log_event ?s ?a ?b ?c) ?k ?st] =>
      let Hrun := fresh "Hrun" in
      let Hr := fresh "Hr" in
      destruct (log_event_run a b c st) as (evs & Hrun & Hc & Hr);
      rewrite (bind_return _ k _ _ _ Hrun); clear Hrun Hr;
      rewrite ?after_after
  end.

Ltac step_call H :=
  match goal with
  | |- context [bind (call ?f ?mk) ?k ?st] =>
      rewrite (bind_return _ k _ _ _ (call_ok f mk st _ _ H));
      rewrite ?after_after
  end.

(** One round of the loop of [_listen] whose three calls return. *)
Lemma listen_body_run v st a w1 t w2 spans w3 :
  record_user ext (silence_seconds self) (vad self) (listener self)
    (negb (first v)) (logger self) (world st) = (Ok a, w1) ->
  transcribe self (audio v ++ a) w1 = (Ok t, w2) ->
  segment ext (t ++ " .") w2 = (Ok spans, w3) ->
  exists evs,
    listen_body self ext v st =
      (Return {| sentence_finished := (1 <? List.length spans)%nat;
                 first := false;
                 audio := audio v ++ a;
                 n := if (1 <? List.length spans)%nat then n v else (n v - 1)%Z;
                 text := Some t |},
       after st evs w3)
    /\ calls evs =
         [EvRecordUser (silence_seconds self) (negb (first v)) (Ok a);
          EvTranscribe (audio v ++ a) (Ok t);
          EvSegment (t ++ " .") (Ok spans)].
Proof.
  intros Hrec Htr Hseg. unfold listen_body, call_transcribe.
  step_call Hrec.
  step_log l1 Hl1.
  step_call Htr.
  step_log l2 Hl2.
  step_log l3 Hl3.
  step_call Hseg.
  destruct (1 <? List.length spans)%nat.
  - step_log l4 Hl4. unfold ret. eexists. split; [reflexivity|].
    rewrite !calls_app, Hl1, Hl2, Hl3, Hl4. reflexivity.
  - step_log l4 Hl4. unfold ret. eexists. split; [reflexivity|].
    rewrite !calls_app, Hl1, Hl2, Hl3, Hl4. reflexivity.
Qed.

(** The loop of [_listen], unfolded once. *)
Lemma listen_loop_enter fuel v st :
  sentence_finished v = false -> (0 < n v)%Z ->
  listen_loop self ext (S fuel) v st =
    bind (listen_body self ext v) (listen_loop self ext fuel) st.
Proof.
  intros Hsf Hn. simpl. rewrite Hsf.
  destruct (Z.ltb_spec 0 (n v)); [reflexivity | lia].
Qed.

Lemma listen_loop_leave fuel v st :
  sentence_finished v = true \/ (n v <= 0)%Z ->
  listen_loop self ext fuel v st = (Return v, st).
Proof.
  intros H. destruct fuel; simpl.
  - destruct H as [-> | H]; [reflexivity|].
    destruct (Z.ltb_spec 0 (n v)); [lia|]. now rewrite andb_false_r.
  - destruct H as [-> | H]; [reflexivity|].
    destruct (Z.ltb_spec 0 (n v)); [lia|]. now rewrite andb_false_r.
Qed.


(** C2. When the first capture and the first transcription return and the
    segmenter finds more than one span in the first transcript followed by
    " .", [_listen] makes exactly one capture/transcribe/segment round and
    returns that first transcript. *)
Theorem listen_one_round_on_boundary (st : state) a1 w1 t1 w2 s1 w3 :
  record_user ext (silence_seconds self) (vad self) (listener self)
    false (logger self) (world st) = (Ok a1, w1) ->
  transcribe self a1 w1 = (Ok t1, w2) ->
  segment ext (t1 ++ " .") w2 = (Ok s1, w3) ->
  (1 < List.length s1)%nat ->
  exists evs,
    _listen self ext st = (Return t1, after st evs w3)
    /\ calls evs =
         [EvRecordUser (silence_seconds self) false (Ok a1);
          EvTranscribe a1 (Ok t1);
          EvSegment (t1 ++ " .") (Ok s1)].
Proof.
  intros H1 H2 H3 L1. apply Nat.ltb_lt in L1.
  destruct (listen_body_run listen_init st a1 w1 t1 w2 s1 w3 H1 H2 H3)
    as (evs1 & R1 & C1).
  rewrite L1 in R1. simpl in R1, C1.
  exists evs1. split; [|exact C1].
  unfold _listen. simpl Z.to_nat. change (Pos.to_nat 2) with 2%nat.
  rewrite (bind_return _ _ st
             {| sentence_finished := true; first := false;
                audio := a1; n := 2; text := Some t1 |}
             (after st evs1 w3)); [reflexivity|].
  rewrite listen_loop_enter by (simpl; lia || reflexivity).
  rewrite (bind_return _ _ _ _ _ R1).
  apply listen_loop_leave. left. reflexivity.
Qed.

(** One round of the loop of [_listen] ends the loop or uses up a try; it
    neither blocks nor needs fuel. *)
Lemma listen_body_cases v st :
  match listen_body self ext v st with
  | (Return v', _) => sentence_finished v' = true \/ n v' = (n v - 1)%Z
  | (Raise _, _) => True
  | (Blocks, _) => False
  | (OutOfFuel, _) => False
  end.
Proof.
  unfold listen_body, call_transcribe, bind, call, _log_event, ret.
  destruct (record_user _ _ _ _ _ _ _) as [[a|e] w1]; [|exact I].
  destruct (logger self); simpl.
  - destruct (transcribe _ _ _) as [[t|e] w2]; [|exact I].
    destruct (segment _ _ _) as [[sp|e] w3]; [|exact I].
    destruct (1 <? List.length sp)%nat; simpl; auto.
  - destruct (transcribe _ _ _) as [[t|e] w2]; [|exact I].
    destruct (segment _ _ _) as [[sp|e] w3]; [|exact I].
    destruct (1 <? List.length sp)%nat; simpl; auto.
Qed.

(** The loop of [_listen] is bounded by [n]: with [n] rounds of fuel it
    never reaches the bound of the model. *)
Lemma listen_loop_total fuel : forall v st,
  (Z.to_nat (n v) <= fuel)%nat ->
  fst (listen_loop self ext fuel v st) <> OutOfFuel.
Proof.
  induction fuel as [|fuel IH]; intros v st Hn.
  - rewrite listen_loop_leave; [discriminate|]. right. lia.
  - destruct (sentence_finished v) eqn:Hsf.
    + rewrite listen_loop_leave by auto. discriminate.
    + destruct (Z.ltb_spec 0 (n v)) as [Hpos|Hle].
      * rewrite listen_loop_enter by assumption. unfold bind.
        pose proof (listen_body_cases v st) as Hc.
        destruct (listen_body self ext v st) as [[v'| e | | ] st'];
          try discriminate; try contradiction.
        destruct Hc as [Hc|Hc].
        -- rewrite listen_loop_leave by auto. discriminate.
        -- apply IH. lia.
      * rewrite listen_loop_leave by auto. discriminate.
Qed.

Lemma listen_loop_never_blocks fuel : forall v st,
  fst (listen_loop self ext fuel v st) <> Blocks.
Proof.
  induction fuel as [|k IH]; intros v st; simpl.
  - destruct (negb (sentence_finished v) && (0 <? n v)%Z); discriminate.
  - destruct (negb (sentence_finished v) && (0 <? n v)%Z); [|discriminate].
    unfold bind. pose proof (listen_body_cases v st) as Hc.
    destruct (listen_body self ext v st) as [[v'| e | | ] st'];
      try discriminate; try contradiction. apply IH.
Qed.

(** [_listen] always ends within the fuel it is given: it returns or
    raises. *)
Lemma listen_total st :
  fst (_listen self ext st) <> OutOfFuel /\ fst (_listen self ext st) <> Blocks.
Proof.
  unfold _listen, bind.
  pose proof (listen_loop_total (Z.to_nat (n listen_init)) listen_init st
                (Nat.le_refl _)) as Hf.
  pose proof (listen_loop_never_blocks (Z.to_nat (n listen_init))
                listen_init st) as Hb.
  destruct (listen_loop self ext (Z.to_nat (n listen_init)) listen_init st)
    as [[v| e | | ] st']; simpl in *; try congruence;
    try (split; discriminate).
  destruct (text v); split; discriminate.
Qed.

(** ** The reading loop *)

Lemma read_until_sentinel_spaced fragments : forall text rest,
  read_until_sentinel text (map Some fragments ++ None :: rest)
    = Return (text ++ spaced fragments)%string.
Proof.
  induction fragments as [|f fs IH]; intros text rest; simpl.
  - now rewrite append_empty_r.
  - rewrite IH. now rewrite !string_app_assoc.
Qed.

(** A queue without sentinel blocks the reader for ever. *)
Lemma read_until_sentinel_blocks fragments : forall text,
  read_until_sentinel text (map Some fragments) = Blocks.
Proof.
  induction fragments as [|f fs IH]; intros text; simpl; [reflexivity|apply IH].
Qed.

(** [_sim_transcribe_stream] in full: one run of the transcriber on the
    queue that holds the converted buffer and the sentinel, then the
    reading loop on what the run left. *)
Lemma sim_transcribe_stream_run input_audio st fin aq tq w :
  transcribe_stream self [Some (astype_int16_tobytes input_audio); None] []
    (world st) = (fin, aq, tq, w) ->
  _sim_transcribe_stream self input_audio st =
    (match fin with
     | Hangs => Blocks
     | _ => read_until_sentinel "" tq
     end,
     after st
       [EvTranscribeStream [Some (astype_int16_tobytes input_audio); None]
          tq fin] w).
Proof.
  intros H. unfold _sim_transcribe_stream, bind, start_and_join_transcription.
  simpl app. rewrite H. destruct fin; reflexivity.
Qed.

(** C4 (amended). [_sim_transcribe_stream] runs the streaming transcriber
    once, on a new audio queue that holds exactly the buffer converted to
    16-bit PCM and then the sentinel, and on a new empty transcription
    queue.  It reads the transcription queue only after that run has ended:
    while the transcriber runs the caller is blocked, for ever if the
    transcriber never ends.  It returns the fragments put before the first
    sentinel, each followed by one space, and blocks for ever when the
    transcriber has ended without a sentinel. *)
Theorem sim_transcribe_stream_spaced input_audio st fin aq tq w :
  transcribe_stream self [Some (astype_int16_tobytes input_audio); None] []
    (world st) = (fin, aq, tq, w) ->
  let st' :=
    after st
      [EvTranscribeStream [Some (astype_int16_tobytes input_audio); None]
         tq fin] w in
  (fin = Hangs -> _sim_transcribe_stream self input_audio st = (Blocks, st'))
  /\ (fin <> Hangs ->
      forall fragments rest,
        tq = map Some fragments ++ None :: rest ->
        _sim_transcribe_stream self input_audio st
        = (Return (spaced fragments), st'))
  /\ (fin <> Hangs ->
      forall fragments,
        tq = map Some fragments ->
        _sim_transcribe_stream self input_audio st = (Blocks, st')).
Proof.
  intros H. cbv zeta. rewrite (sim_transcribe_stream_run _ _ _ _ _ _ H).
  split; [|split].
  - now intros ->.
  - intros Hfin fragments rest ->. rewrite read_until_sentinel_spaced. simpl.
    destruct fin; [reflexivity | reflexivity | contradiction].
  - intros Hfin fragments ->. rewrite read_until_sentinel_blocks.
    destruct fin; reflexivity.
Qed.

(** ** The interruption loop *)

(** The transcription of a window reads the world only: run from any state
    it does what it does from the fresh state of the same world. *)
Lemma transcribe_window_fresh a st :
  transcribe_window self a st =
    (fst (transcribe_window self a (fresh (world st))),
     after st (trace (snd (transcribe_window self a (fresh (world st)))))
       (world (snd (transcribe_window self a (fresh (world st)))))).
Proof.
  unfold transcribe_window. destruct (stream self).
  - unfold _sim_transcribe_stream, bind, start_and_join_transcription.
    simpl. destruct (transcribe_stream _ _ _ _) as [[[fin aq] tq] w].
    destruct fin; reflexivity.
  - unfold call_transcribe, call. simpl.
    destruct (transcribe _ _ _) as [[t|e] w]; reflexivity.
Qed.

(** A round of the loop in which a window was captured and transcribed: the
    normalised text decides between going on with a smaller budget and
    returning the text. *)
Lemma interrupt_body_window T st a w1 txt st2 :
  record_interruption ext (vad self) T (listener self) (logger self)
    (world st) = (Ok (Some a), w1) ->
  transcribe_window self a (fresh w1) = (Return txt, st2) ->
  exists evs,
    interrupt_body self ext T st =
      (Return
         (if Text.member (Text.normalize txt) (not_interrupt_words self)
          then Continue (PrimFloat.sub T (duration_of a))
          else Break (VStr (Text.normalize txt))),
       after st evs (world st2))
    /\ calls evs = EvRecordInterruption T (Ok (Some a)) :: calls (trace st2).
Proof.
  intros Hcap Htr. unfold interrupt_body.
  step_call Hcap.
  step_log l1 Hl1.
  match goal with
  | |- context [bind (transcribe_window ?s ?x) ?k ?st0] =>
      assert (Hw : transcribe_window s x st0
                   = (Return txt, after st0 (trace st2) (world st2)))
        by (rewrite transcribe_window_fresh; simpl world; now rewrite Htr);
      rewrite (bind_return _ k _ _ _ Hw); clear Hw
  end.
  rewrite ?after_after.
  step_log l2 Hl2.
  destruct (Text.member _ _).
  - step_log l3 Hl3. unfold ret. eexists. split; [reflexivity|].
    rewrite !calls_app, Hl1, Hl2, Hl3. rewrite ?app_nil_r. reflexivity.
  - unfold ret. eexists. split; [reflexivity|].
    rewrite !calls_app, Hl1, Hl2. rewrite ?app_nil_r. reflexivity.
Qed.

(** A round in which nothing was captured. *)
Lemma interrupt_body_nothing T st w1 :
  record_interruption ext (vad self) T (listener self) (logger self)
    (world st) = (Ok None, w1) ->
  interrupt_body self ext T st =
    (Return (Break (VStr "")), after st [EvRecordInterruption T (Ok None)] w1).
Proof.
  intros Hcap. unfold interrupt_body. step_call Hcap. reflexivity.
Qed.

Lemma interrupt_loop_enter fuel T st :
  PrimFloat.ltb 0 T = true ->
  interrupt_loop self ext (S fuel) T st =
    bind (interrupt_body self ext T)
      (fun c => match c with
                | Continue T' => interrupt_loop self ext fuel T'
                | Break v => ret v
                end) st.
Proof. intros H. simpl. now rewrite H. Qed.

Lemma interrupt_loop_leave fuel T st :
  PrimFloat.ltb 0 T = false ->
  interrupt_loop self ext fuel T st = (Return VNone, st).
Proof. intros H. destruct fuel; simpl; now rewrite H. Qed.

Lemma interrupt_listen_on fuel T st :
  listen_interruptions self = true ->
  interrupt_listen self ext fuel T st = interrupt_loop self ext fuel T st.
Proof. intros H. unfold interrupt_listen. now rewrite H. Qed.

(** C5. A captured window whose transcription normalises to one of the
    not-interrupt words is not returned: the round ends in the loop's next
    test with the budget [record_seconds - len(audio) / 16000] (the float
    quotient of the number of samples by 16000, subtracted from the budget),
    and the loop goes on from there when that budget is positive and ends
    otherwise (with [None], never with the text). *)
Theorem interrupt_false_alarm_continues fuel T st a w1 txt st2 :
  PrimFloat.ltb 0 T = true ->
  record_interruption ext (vad self) T (listener self) (logger self)
    (world st) = (Ok (Some a), w1) ->
  transcribe_window self a (fresh w1) = (Return txt, st2) ->
  Text.member (Text.normalize txt) (not_interrupt_words self) = true ->
  exists evs,
    let T' :=
      PrimFloat.sub T
        (PrimFloat.div
           (PrimFloat.of_uint63 (Uint63.of_Z (Z.of_nat (List.length a))))
           16000%float) in
    let st3 := after st evs (world st2) in
    interrupt_body self ext T st = (Return (Continue T'), st3)
    /\ calls evs = EvRecordInterruption T (Ok (Some a)) :: calls (trace st2)
    /\ interrupt_loop self ext (S fuel) T st = interrupt_loop self ext fuel T' st3
    /\ (PrimFloat.ltb 0 T' = false ->
        interrupt_loop self ext fuel T' st3 = (Return VNone, st3))
    /\ (PrimFloat.ltb 0 T' = true ->
        forall fuel', fuel = S fuel' ->
        interrupt_loop self ext fuel T' st3 =
          bind (interrupt_body self ext T')
            (fun c => match c with
                      | Continue T'' => interrupt_loop self ext fuel' T''
                      | Break v => ret v
                      end) st3).
Proof.
  intros Hpos Hcap Htr Hmem.
  destruct (interrupt_body_window T st a w1 txt st2 Hcap Htr) as (evs & Hb & Hc).
  rewrite Hmem in Hb. unfold duration_of in Hb. exists evs. cbv zeta.
  split; [exact Hb|]. split; [exact Hc|]. split.
  - rewrite interrupt_loop_enter by assumption.
    now rewrite (bind_return _ _ _ _ _ Hb).
  - split.
    + intros Hle. now apply interrupt_loop_leave.
    + intros Hgt fuel' ->. now apply interrupt_loop_enter.
Qed.

(** C6 (amended). In the branch of a genuine interruption the call returns
    the normalised text as it is: a string that is truthy exactly when it is
    not empty. *)
Theorem interrupt_genuine_returns_normalized fuel T st a w1 txt st2 :
  listen_interruptions self = true ->
  PrimFloat.ltb 0 T = true ->
  record_interruption ext (vad self) T (listener self) (logger self)
    (world st) = (Ok (Some a), w1) ->
  transcribe_window self a (fresh w1) = (Return txt, st2) ->
  Text.member (Text.normalize txt) (not_interrupt_words self) = false ->
  exists evs,
    interrupt_listen self ext (S fuel) T st =
      (Return (VStr (Text.normalize txt)), after st evs (world st2))
    /\ calls evs = EvRecordInterruption T (Ok (Some a)) :: calls (trace st2)
    /\ truthy (VStr (Text.normalize txt))
       = negb (String.eqb (Text.normalize txt) "").
Proof.
  intros Hon Hpos Hcap Htr Hmem.
  destruct (interrupt_body_window T st a w1 txt st2 Hcap Htr) as (evs & Hb & Hc).
  rewrite Hmem in Hb. exists evs. split; [|split; [exact Hc|reflexivity]].
  rewrite interrupt_listen_on by assumption.
  rewrite interrupt_loop_enter by assumption.
  now rewrite (bind_return _ _ _ _ _ Hb).
Qed.

(** Rounds that all end in the not-interrupt branch are rounds of the loop. *)
Lemma false_alarms_loop k : forall fuel T st T' st',
  false_alarms self ext k T st = Some (T', st') ->
  interrupt_loop self ext (k + fuel) T st = interrupt_loop self ext fuel T' st'.
Proof.
  induction k as [|k IH]; intros fuel T st T' st' H; simpl in H.
  - now injection H as -> ->.
  - destruct (PrimFloat.ltb 0 T) eqn:Hpos; [|discriminate].
    destruct (interrupt_body self ext T st) as [[[T1|v]| e | | ] st1] eqn:Hb;
      try discriminate.
    change (S k + fuel)%nat with (S (k + fuel)).
    rewrite interrupt_loop_enter by assumption.
    rewrite (bind_return _ _ _ _ _ Hb). now apply IH.
Qed.

(** A round that goes on is a round in which a window was captured and its
    transcription normalised to a not-interrupt word. *)
Lemma interrupt_body_continue_inv T st T' st' :
  interrupt_body self ext T st = (Return (Continue T'), st') ->
  exists a w1 txt st2,
    record_interruption ext (vad self) T (listener self) (logger self)
      (world st) = (Ok (Some a), w1)
    /\ transcribe_window self a (fresh w1) = (Return txt, st2)
    /\ Text.member (Text.normalize txt) (not_interrupt_words self) = true
    /\ T' = PrimFloat.sub T (duration_of a).
Proof.
  intros H.
  destruct (record_interruption ext (vad self) T (listener self) (logger self)
              (world st)) as [[[a|]|e] w1] eqn:Hcap.
  - destruct (transcribe_window self a (fresh w1)) as [[txt| e | | ] st2] eqn:Htr.
    + destruct (interrupt_body_window T st a w1 txt st2 Hcap Htr)
        as (evs & Hb & _).
      rewrite Hb in H.
      destruct (Text.member _ _) eqn:Hm; [|discriminate].
      injection H as <- _. exists a, w1, txt, st2. auto.
    + exfalso. revert H. unfold interrupt_body.
      step_call Hcap. step_log l1 Hl1. unfold bind at 1.
      rewrite transcribe_window_fresh. simpl world. rewrite Htr. discriminate.
    + exfalso. revert H. unfold interrupt_body.
      step_call Hcap. step_log l1 Hl1. unfold bind at 1.
      rewrite transcribe_window_fresh. simpl world. rewrite Htr. discriminate.
    + exfalso. revert H. unfold interrupt_body.
      step_call Hcap. step_log l1 Hl1. unfold bind at 1.
      rewrite transcribe_window_fresh. simpl world. rewrite Htr. discriminate.
  - rewrite (interrupt_body_nothing T st w1 Hcap) in H. discriminate.
  - exfalso. revert H. unfold interrupt_body, bind.
    rewrite (call_exn _ _ _ _ _ Hcap). discriminate.
Qed.

(** C8. When rounds of not-interrupt words alone bring the budget to zero
    or below, the call returns [None], given fuel for those rounds; [None],
    the [False] of the switched-off call and the empty string of the empty
    capture are three different values, all falsy. *)
Theorem interrupt_budget_exhausted_returns_none k fuel T st T' st' :
  listen_interruptions self = true ->
  false_alarms self ext k T st = Some (T', st') ->
  PrimFloat.ltb 0 T' = false ->
  (k <= fuel)%nat ->
  interrupt_listen self ext fuel T st = (Return VNone, st')
  /\ VNone <> VBool false /\ VNone <> VStr "" /\ VBool false <> VStr ""
  /\ truthy VNone = false /\ truthy (VBool false) = false
  /\ truthy (VStr "") = false.
Proof.
  intros Hon Hrun Hle Hfuel.
  split; [|repeat split; discriminate].
  rewrite interrupt_listen_on by assumption.
  replace fuel with (k + (fuel - k))%nat by lia.
  rewrite (false_alarms_loop k _ _ _ _ _ Hrun).
  now apply interrupt_loop_leave.
Qed.

(** ** Exceptions *)
















(** ** All the runs of [_listen] *)

(** A round that returns is a round whose three calls returned. *)
Lemma listen_body_inv v st v' st' :
  listen_body self ext v st = (Return v', st') ->
  exists a w1 t w2 spans w3,
    record_user ext (silence_seconds self) (vad self) (listener self)
      (negb (first v)) (logger self) (world st) = (Ok a, w1)
    /\ transcribe self (audio v ++ a) w1 = (Ok t, w2)
    /\ segment ext (t ++ " .") w2 = (Ok spans, w3).
Proof.
  intros H.
  destruct (record_user ext (silence_seconds self) (vad self) (listener self)
              (negb (first v)) (logger self) (world st))
    as [[a|e] w1] eqn:H1.
  - destruct (transcribe self (audio v ++ a) w1) as [[t|e] w2] eqn:H2.
    + destruct (segment ext (t ++ " .") w2) as [[spans|e] w3] eqn:H3.
      * exists a, w1, t, w2, spans, w3. auto.
      * exfalso. revert H. unfold listen_body, call_transcribe.
        step_call H1. step_log l1 Hl1. step_call H2.
        step_log l2 Hl2. step_log l3 Hl3. unfold bind at 1.
        match goal with
        | |- context [call ?f ?mk ?s] => rewrite (call_exn f mk s _ _ H3)
        end. discriminate.
    + exfalso. revert H. unfold listen_body, call_transcribe.
      step_call H1. step_log l1 Hl1. unfold bind at 1.
      match goal with
      | |- context [call ?f ?mk ?s] => rewrite (call_exn f mk s _ _ H2)
      end. discriminate.
  - exfalso. revert H. unfold listen_body, bind.
    rewrite (call_exn _ _ _ _ _ H1). discriminate.
Qed.

(** X4. Every run of [_listen] that returns has one of two shapes,
    whatever the collaborators do.  Either it made one round, whose
    segmentation had more than one span, and returns that round's
    transcript; or the first segmentation had at most one span, it made a
    second round on the two captures concatenated, and returns the second
    transcript, whatever the second segmentation said.  The first capture
    is made with [started = False], the second with [started = True]. *)
Theorem listen_returns_inv st t st' :
  _listen self ext st = (Return t, st') ->
  exists evs,
    st' = after st evs (world st')
    /\ ((exists a1 s1,
           calls evs =
             [EvRecordUser (silence_seconds self) false (Ok a1);
              EvTranscribe a1 (Ok t);
              EvSegment (t ++ " .") (Ok s1)]
           /\ (1 < List.length s1)%nat)
        \/ (exists a1 t1 s1 a2 s2,
              calls evs =
                [EvRecordUser (silence_seconds self) false (Ok a1);
                 EvTranscribe a1 (Ok t1);
                 EvSegment (t1 ++ " .") (Ok s1);
                 EvRecordUser (silence_seconds self) true (Ok a2);
                 EvTranscribe (a1 ++ a2) (Ok t);
                 EvSegment (t ++ " .") (Ok s2)]
              /\ (List.length s1 <= 1)%nat)).
Proof.
  unfold _listen. simpl Z.to_nat. change (Pos.to_nat 2) with 2%nat.
  unfold bind at 1.
  rewrite listen_loop_enter by (simpl; lia || reflexivity).
  unfold bind at 1.
  destruct (listen_body self ext listen_init st) as [[v1|e| |] st1] eqn:Hb1;
    try discriminate.
  destruct (listen_body_inv _ _ _ _ Hb1)
    as (a1 & w1 & t1 & w2 & s1 & w3 & H1 & H2 & H3).
  destruct (listen_body_run listen_init st a1 w1 t1 w2 s1 w3 H1 H2 H3)
    as (evs1 & R1 & C1).
  rewrite R1 in Hb1. injection Hb1 as <- <-. simpl in C1.
  destruct (1 <? List.length s1)%nat eqn:L1.
  - rewrite listen_loop_leave by (left; reflexivity). simpl.
    intros H. injection H as <- <-. exists evs1. split; [reflexivity|].
    left. exists a1, s1. split; [exact C1|]. now apply Nat.ltb_lt.
  - rewrite listen_loop_enter by (simpl; lia || reflexivity).
    unfold bind at 1.
    match goal with
    | |- context [listen_body self ext ?v ?s] =>
        destruct (listen_body self ext v s) as [[v2|e| |] st2] eqn:Hb2;
          try discriminate;
        destruct (listen_body_inv _ _ _ _ Hb2)
          as (a2 & w4 & t2 & w5 & s2 & w6 & H4 & H5 & H6);
        destruct (listen_body_run v s a2 w4 t2 w5 s2 w6 H4 H5 H6)
          as (evs2 & R2 & C2)
    end.
    rewrite R2 in Hb2. injection Hb2 as <- <-. simpl in C2.
    rewrite after_after.
    rewrite listen_loop_leave
      by (simpl; destruct (1 <? List.length s2)%nat; [left|right];
          simpl; reflexivity || lia).
    simpl. intros H. injection H as <- <-.
    exists (evs1 ++ evs2). split; [reflexivity|]. right.
    exists a1, t1, s1, a2, s2. split.
    + rewrite calls_app, C1, C2. reflexivity.
    + now apply Nat.ltb_ge.
Qed.

Lemma captures_app evs1 evs2 :
  captures (evs1 ++ evs2) = (captures evs1 + captures evs2)%nat.
Proof. unfold captures. now rewrite filter_app, length_app. Qed.

Lemma calls_length_app evs1 evs2 :
  List.length (calls (evs1 ++ evs2))
  = (List.length (calls evs1) + List.length (calls evs2))%nat.
Proof. now rewrite calls_app, length_app. Qed.

(** Whatever the collaborators do, a round makes one capture and at most
    three calls. *)
Lemma listen_body_trace v st :
  exists evs w,
    snd (listen_body self ext v st) = after st evs w
    /\ captures evs = 1%nat /\ (List.length (calls evs) <= 3)%nat.
Proof.
  unfold listen_body, call_transcribe, bind, call, _log_event, ret, emit, after.
  destruct (record_user _ _ _ _ _ _ _) as [[a|e] w1];
    [|eexists _, _; split; [reflexivity|]; split; [reflexivity | simpl; lia]].
  destruct (logger self); cbn [trace world];
    (destruct (transcribe _ _ _) as [[t|e] w2]; cbn [trace world];
     [destruct (segment _ _ _) as [[sp|e] w3]; cbn [trace world];
      [destruct (1 <? List.length sp)%nat; cbn [trace world snd]|]|]);
    rewrite <- ?app_assoc; cbn [app];
    eexists _, _; (split; [reflexivity|]);
    (split; [reflexivity | simpl; lia]).
Qed.

Lemma listen_loop_trace fuel : forall v st,
  exists evs w,
    snd (listen_loop self ext fuel v st) = after st evs w
    /\ (captures evs <= fuel)%nat
    /\ (List.length (calls evs) <= 3 * fuel)%nat
    /\ (sentence_finished v = false -> (0 < n v)%Z -> (0 < fuel)%nat ->
        (1 <= captures evs)%nat).
Proof.
  induction fuel as [|fuel IH]; intros v st.
  - exists [], (world st). rewrite after_nil. cbn [listen_loop].
    destruct (negb (sentence_finished v) && (0 <? n v)%Z);
      (split; [reflexivity|]); unfold captures; simpl; repeat split; intros; lia.
  - destruct (sentence_finished v) eqn:Hsf;
      [|destruct (Z.ltb_spec 0 (n v)) as [Hpos|Hle]].
    + rewrite listen_loop_leave by auto. exists [], (world st).
      rewrite after_nil. unfold captures. simpl.
      repeat split; intros; lia || congruence.
    + rewrite listen_loop_enter by assumption. unfold bind.
      destruct (listen_body_trace v st) as (evs1 & w1 & Hs1 & Hc1 & Hl1).
      destruct (listen_body self ext v st) as [[v1|e| |] st1]; simpl in Hs1;
        try (exists evs1, w1; simpl; repeat split; try assumption; intros; lia).
      destruct (IH v1 st1) as (evs2 & w2 & Hs2 & Hc2 & Hl2 & _).
      exists (evs1 ++ evs2), w2. rewrite Hs2, Hs1, after_after.
      rewrite captures_app, calls_length_app.
      repeat split; intros; lia.
    + rewrite listen_loop_leave by auto. exists [], (world st).
      rewrite after_nil. unfold captures. simpl. repeat split; intros; lia.
Qed.

(** X5. Whatever the collaborators give back, by return or by exception,
    and whether or not a boundary is found, [_listen] calls [record_user] at
    most twice and makes at most six calls to its collaborators in all: the
    loop never asks for a third round. *)
Theorem listen_bounded st :
  exists evs w,
    snd (_listen self ext st) = after st evs w
    /\ (captures evs <= 2)%nat
    /\ (List.length (calls evs) <= 6)%nat
    /\ fst (_listen self ext st) <> OutOfFuel.
Proof.
  destruct (listen_loop_trace (Z.to_nat (n listen_init)) listen_init st)
    as (evs & w & Hs & Hc & Hl & _).
  exists evs, w. destruct (listen_total st) as [Hf _].
  split; [|split; [|split; assumption]].
  - rewrite <- Hs. unfold _listen, bind.
    destruct (listen_loop self ext (Z.to_nat (n listen_init)) listen_init st)
      as [[v|e| |] st1]; try reflexivity.
    destruct (text v); reflexivity.
  - exact Hc.
Qed.

(** ** All the runs of [interrupt_listen] *)

(** X7. In streaming mode a round of [interrupt_listen] decides on the
    normalisation of the space-joined fragments: the space that
    [_sim_transcribe_stream] puts after the last fragment is lost in the
    normalisation, so a window is filtered in streaming mode exactly when
    the same words are filtered in batch mode. *)
Theorem interrupt_stream_round_decides_on_joined
  T st a w1 fin aq fragments rest w2 :
  stream self = true ->
  record_interruption ext (vad self) T (listener self) (logger self)
    (world st) = (Ok (Some a), w1) ->
  transcribe_stream self [Some (astype_int16_tobytes a); None] [] w1
    = (fin, aq, map Some fragments ++ None :: rest, w2) ->
  fin <> Hangs ->
  exists evs,
    interrupt_body self ext T st =
      (Return
         (if Text.member (Text.normalize (space_joined fragments))
               (not_interrupt_words self)
          then Continue (PrimFloat.sub T (duration_of a))
          else Break (VStr (Text.normalize (space_joined fragments)))),
       after st evs w2)
    /\ calls evs =
         [EvRecordInterruption T (Ok (Some a));
          EvTranscribeStream [Some (astype_int16_tobytes a); None]
            (map Some fragments ++ None :: rest) fin].
Proof.
  intros Hstream Hcap Hrun Hfin.
  assert (Htr : transcribe_window self a (fresh w1) =
                (Return (spaced fragments),
                 after (fresh w1)
                   [EvTranscribeStream [Some (astype_int16_tobytes a); None]
                      (map Some fragments ++ None :: rest) fin] w2)).
  { unfold transcribe_window. rewrite Hstream.
    rewrite (sim_transcribe_stream_run a (fresh w1) _ _ _ _ Hrun).
    rewrite read_until_sentinel_spaced. simpl.
    destruct fin; [reflexivity | reflexivity | contradiction]. }
  destruct (interrupt_body_window T st a w1 _ _ Hcap Htr) as (evs & Hb & Hc).
  rewrite normalize_spaced in Hb. exists evs. split; [exact Hb | exact Hc].
Qed.

(** A round that returns a value is a round without capture, or a round
    whose transcription does not normalise to a not-interrupt word. *)
Lemma interrupt_body_break_inv T st v st' :
  interrupt_body self ext T st = (Return (Break v), st') ->
  v = VStr ""
  \/ exists txt,
       v = VStr (Text.normalize txt)
       /\ Text.member (Text.normalize txt) (not_interrupt_words self) = false.
Proof.
  intros H.
  destruct (record_interruption ext (vad self) T (listener self) (logger self)
              (world st)) as [[[a|]|e] w1] eqn:Hcap.
  - destruct (transcribe_window self a (fresh w1)) as [[txt| e | | ] st2] eqn:Htr.
    + destruct (interrupt_body_window T st a w1 txt st2 Hcap Htr)
        as (evs & Hb & _).
      rewrite Hb in H.
      destruct (Text.member _ _) eqn:Hm; [discriminate|].
      injection H as <- _. right. now exists txt.
    + exfalso. revert H. unfold interrupt_body.
      step_call Hcap. step_log l1 Hl1. unfold bind at 1.
      rewrite transcribe_window_fresh. simpl world. rewrite Htr. discriminate.
    + exfalso. revert H. unfold interrupt_body.
      step_call Hcap. step_log l1 Hl1. unfold bind at 1.
      rewrite transcribe_window_fresh. simpl world. rewrite Htr. discriminate.
    + exfalso. revert H. unfold interrupt_body.
      step_call Hcap. step_log l1 Hl1. unfold bind at 1.
      rewrite transcribe_window_fresh. simpl world. rewrite Htr. discriminate.
  - rewrite (interrupt_body_nothing T st w1 Hcap) in H.
    injection H as <- _. now left.
  - exfalso. revert H. unfold interrupt_body, bind.
    rewrite (call_exn _ _ _ _ _ Hcap). discriminate.
Qed.

Lemma interrupt_loop_returns fuel : forall T st v st',
  interrupt_loop self ext fuel T st = (Return v, st') ->
  v = VNone \/ v = VStr ""
  \/ exists txt,
       v = VStr (Text.normalize txt)
       /\ Text.member (Text.normalize txt) (not_interrupt_words self) = false.
Proof.
  induction fuel as [|fuel IH]; intros T st v st'; cbn [interrupt_loop];
    destruct (PrimFloat.ltb 0 T);
    try discriminate; try (intros H; injection H as <- _; now left).
  unfold bind.
  destruct (interrupt_body self ext T st) as [[[T1|v1]|e| |] st1] eqn:Hb;
    try discriminate.
  - apply IH.
  - intros H. injection H as <- _. right.
    exact (interrupt_body_break_inv _ _ _ _ Hb).
Qed.

(** A round that returns a value, with what it did before. *)
Lemma interrupt_body_break_cases T st v st' :
  interrupt_body self ext T st = (Return (Break v), st') ->
  (exists w1,
     record_interruption ext (vad self) T (listener self) (logger self)
       (world st) = (Ok None, w1)
     /\ v = VStr ""
     /\ st' = after st [EvRecordInterruption T (Ok None)] w1)
  \/ (exists a w1 txt st2 evs,
        record_interruption ext (vad self) T (listener self) (logger self)
          (world st) = (Ok (Some a), w1)
        /\ transcribe_window self a (fresh w1) = (Return txt, st2)
        /\ Text.member (Text.normalize txt) (not_interrupt_words self) = false
        /\ v = VStr (Text.normalize txt)
        /\ st' = after st evs (world st2)
        /\ calls evs = EvRecordInterruption T (Ok (Some a)) :: calls (trace st2)).
Proof.
  intros H.
  destruct (record_interruption ext (vad self) T (listener self) (logger self)
              (world st)) as [[[a|]|e] w1] eqn:Hcap.
  - destruct (transcribe_window self a (fresh w1)) as [[txt| e | | ] st2] eqn:Htr.
    + destruct (interrupt_body_window T st a w1 txt st2 Hcap Htr)
        as (evs & Hb & Hc).
      rewrite Hb in H.
      destruct (Text.member _ _) eqn:Hm; [discriminate|].
      injection H as <- <-. right. exists a, w1, txt, st2, evs. auto 10.
    + exfalso. revert H. unfold interrupt_body.
      step_call Hcap. step_log l1 Hl1. unfold bind at 1.
      rewrite transcribe_window_fresh. simpl world. rewrite Htr. discriminate.
    + exfalso. revert H. unfold interrupt_body.
      step_call Hcap. step_log l1 Hl1. unfold bind at 1.
      rewrite transcribe_window_fresh. simpl world. rewrite Htr. discriminate.
    + exfalso. revert H. unfold interrupt_body.
      step_call Hcap. step_log l1 Hl1. unfold bind at 1.
      rewrite transcribe_window_fresh. simpl world. rewrite Htr. discriminate.
  - rewrite (interrupt_body_nothing T st w1 Hcap) in H.
    injection H as <- <-. left. exists w1. auto.
  - exfalso. revert H. unfold interrupt_body, bind.
    rewrite (call_exn _ _ _ _ _ Hcap). discriminate.
Qed.

(** A call of the loop that returns a value other than the [None] of its
    end has reached, after rounds that went on, the round that returned
    it. *)
Lemma interrupt_loop_exit fuel : forall T st v st',
  interrupt_loop self ext fuel T st = (Return v, st') ->
  v = VNone
  \/ exists pre T1 w0,
       interrupt_body self ext T1 (after st pre w0) = (Return (Break v), st').
Proof.
  induction fuel as [|fuel IH]; intros T st v st'; cbn [interrupt_loop];
    destruct (PrimFloat.ltb 0 T);
    try discriminate; try (intros H; injection H as <- _; now left).
  unfold bind.
  destruct (interrupt_body self ext T st) as [[[T1|v1]|e| |] st1] eqn:Hb;
    try discriminate.
  - intros H. destruct (IH _ _ _ _ H) as [-> | (pre & T2 & w0 & Hbr)];
      [now left|]. right.
    destruct (interrupt_body_continue_inv _ _ _ _ Hb)
      as (a & w1 & txt & st2 & Hcap & Htr & _ & _).
    destruct (interrupt_body_window T st a w1 txt st2 Hcap Htr)
      as (evs & Hb' & _).
    rewrite Hb' in Hb. injection Hb as _ <-.
    rewrite after_after in Hbr. now exists (evs ++ pre), T2, w0.
  - intros H. injection H as <- <-. right.
    exists [], T, (world st). now rewrite after_nil.
Qed.

(** C7 (amended). [interrupt_listen] returns a falsy value on three
    early-exit paths.  With interruption listening switched off it returns
    [False] at once and calls nothing.  In any round, a capture that reports
    nothing makes it return the empty string at once, with that capture as
    the round's only call.  And in the branch of a genuine interruption the
    [return text] gives the empty string, after a capture and a
    transcription, when the normalised transcription is empty.  Beside these
    the only falsy result is the [None] at the end of the loop, which is no
    early exit. *)
Theorem interrupt_early_exits :
  (listen_interruptions self = false ->
   forall fuel T st,
     interrupt_listen self ext fuel T st = (Return (VBool false), st))
  /\ (forall fuel T st w1,
        PrimFloat.ltb 0 T = true ->
        record_interruption ext (vad self) T (listener self) (logger self)
          (world st) = (Ok None, w1) ->
        interrupt_loop self ext (S fuel) T st =
          (Return (VStr ""), after st [EvRecordInterruption T (Ok None)] w1)
        /\ (listen_interruptions self = true ->
            interrupt_listen self ext (S fuel) T st =
              (Return (VStr ""),
               after st [EvRecordInterruption T (Ok None)] w1)))
  /\ (forall fuel T st a w1 txt st2,
        listen_interruptions self = true ->
        PrimFloat.ltb 0 T = true ->
        record_interruption ext (vad self) T (listener self) (logger self)
          (world st) = (Ok (Some a), w1) ->
        transcribe_window self a (fresh w1) = (Return txt, st2) ->
        Text.normalize txt = "" ->
        Text.member "" (not_interrupt_words self) = false ->
        exists evs,
          interrupt_listen self ext (S fuel) T st =
            (Return (VStr ""), after st evs (world st2))
          /\ calls evs
             = EvRecordInterruption T (Ok (Some a)) :: calls (trace st2))
  /\ (forall fuel T st v st',
        interrupt_listen self ext fuel T st = (Return v, st') ->
        truthy v = false ->
        (listen_interruptions self = false /\ v = VBool false /\ st' = st)
        \/ (listen_interruptions self = true /\ v = VNone)
        \/ (listen_interruptions self = true /\ v = VStr ""
            /\ exists pre T1 w1,
                 st' = after st (pre ++ [EvRecordInterruption T1 (Ok None)]) w1)
        \/ (listen_interruptions self = true /\ v = VStr ""
            /\ Text.member "" (not_interrupt_words self) = false
            /\ exists pre T1 a w1 txt st2 evs,
                 transcribe_window self a (fresh w1) = (Return txt, st2)
                 /\ Text.normalize txt = ""
                 /\ st' = after st (pre ++ evs) (world st2)
                 /\ calls evs
                    = EvRecordInterruption T1 (Ok (Some a))
                      :: calls (trace st2)))
  /\ truthy (VBool false) = false /\ truthy (VStr "") = false.
Proof.
  split; [|split; [|split; [|split; [|split; reflexivity]]]].
  - intros Hoff fuel T st. unfold interrupt_listen. now rewrite Hoff.
  - intros fuel T st w1 Hpos Hcap.
    assert (Hl : interrupt_loop self ext (S fuel) T st =
                 (Return (VStr ""),
                  after st [EvRecordInterruption T (Ok None)] w1)).
    { rewrite interrupt_loop_enter by assumption.
      now rewrite (bind_return _ _ _ _ _ (interrupt_body_nothing T st w1 Hcap)). }
    split; [exact Hl|].
    intros Hon. now rewrite interrupt_listen_on.
  - intros fuel T st a w1 txt st2 Hon Hpos Hcap Htr Hempty Hmem.
    destruct (interrupt_body_window T st a w1 txt st2 Hcap Htr)
      as (evs & Hb & Hc).
    rewrite Hempty, Hmem in Hb. exists evs. split; [|exact Hc].
    rewrite interrupt_listen_on by assumption.
    rewrite interrupt_loop_enter by assumption.
    now rewrite (bind_return _ _ _ _ _ Hb).
  - intros fuel T st v st' H Hfalsy. unfold interrupt_listen in H.
    destruct (listen_interruptions self); simpl negb in H; cbv iota in H.
    + right. destruct (interrupt_loop_exit _ _ _ _ _ H)
        as [-> | (pre & T1 & w0 & Hbr)]; [now left|]. right.
      destruct (interrupt_body_break_cases _ _ _ _ Hbr)
        as [(w1 & _ & -> & ->)
           | (a & w1 & txt & st2 & evs & _ & Htr & Hm & -> & -> & Hc)].
      * left. split; [reflexivity|]. split; [reflexivity|].
        exists pre, T1, w1. apply after_after.
      * right. simpl in Hfalsy. apply negb_false_iff in Hfalsy.
        apply String.eqb_eq in Hfalsy. rewrite Hfalsy in Hm |- *.
        split; [reflexivity|]. split; [reflexivity|]. split; [exact Hm|].
        exists pre, T1, a, w1, txt, st2, evs.
        split; [exact Htr|]. split; [exact Hfalsy|].
        split; [apply after_after | exact Hc].
    + injection H as <- <-. now left.
Qed.

(** X8. What [interrupt_listen] can return.  [False], and then listening
    is switched off and nothing was done; [None]; or a string, which is
    empty or else is the normalisation of a transcription and is not among
    the not-interrupt words.  It never returns [True], and never a
    not-interrupt word other than the empty string. *)
Theorem interrupt_listen_returns fuel T st v st' :
  interrupt_listen self ext fuel T st = (Return v, st') ->
  match v with
  | VBool b => b = false /\ listen_interruptions self = false /\ st' = st
  | VNone => listen_interruptions self = true
  | VStr s =>
      listen_interruptions self = true
      /\ (s = ""
          \/ (Text.member s (not_interrupt_words self) = false
              /\ exists txt, s = Text.normalize txt))
  end.
Proof.
  unfold interrupt_listen.
  destruct (listen_interruptions self); simpl negb; cbv iota.
  - intros H. destruct (interrupt_loop_returns _ _ _ _ _ H)
      as [-> | [-> | (txt & -> & Hm)]].
    + reflexivity.
    + split; [reflexivity | now left].
    + split; [reflexivity|]. right. split; [exact Hm|]. now exists txt.
  - intros H. injection H as <- <-. auto.
Qed.

(** X9. The budget does not bound the number of rounds.  When the budget
    is positive, every capture gives the same window, whose duration the
    float subtraction leaves the budget unchanged by (an empty window, or a
    window short against a large budget), and every transcription of it is
    a not-interrupt word, the loop is still running after any number of
    rounds: the call does not end. *)
Theorem interrupt_absorbed_budget_never_ends T a :
  listen_interruptions self = true ->
  PrimFloat.ltb 0 T = true ->
  PrimFloat.sub T (duration_of a) = T ->
  (forall w, exists w1,
     record_interruption ext (vad self) T (listener self) (logger self) w
     = (Ok (Some a), w1)) ->
  (forall w, exists txt st2,
     transcribe_window self a (fresh w) = (Return txt, st2)
     /\ Text.member (Text.normalize txt) (not_interrupt_words self) = true) ->
  forall fuel st, fst (interrupt_listen self ext fuel T st) = OutOfFuel.
Proof.
  intros Hon Hpos Habs Hcap Htr fuel st.
  rewrite interrupt_listen_on by assumption. revert st.
  induction fuel as [|fuel IH]; intros st.
  - simpl. now rewrite Hpos.
  - rewrite interrupt_loop_enter by assumption.
    destruct (Hcap (world st)) as (w1 & H1).
    destruct (Htr w1) as (txt & st2 & H2 & Hm).
    destruct (interrupt_body_window T st a w1 txt st2 H1 H2) as (evs & Hb & _).
    rewrite Hm, Habs in Hb. rewrite (bind_return _ _ _ _ _ Hb). apply IH.
Qed.

Lemma budgets_app evs1 evs2 : budgets (evs1 ++ evs2) = budgets evs1 ++ budgets evs2.
Proof. unfold budgets. apply flat_map_app. Qed.

Lemma budgets_calls evs : budgets (calls evs) = budgets evs.
Proof.
  induction evs as [|ev evs IH]; [reflexivity|].
  destruct ev; simpl; now rewrite ?IH.
Qed.

Lemma transcribe_window_no_budget a w :
  budgets (trace (snd (transcribe_window self a (fresh w)))) = [].
Proof.
  unfold transcribe_window. destruct (stream self).
  - unfold _sim_transcribe_stream, bind, start_and_join_transcription.
    simpl. destruct (transcribe_stream _ _ _ _) as [[[fin aq] tq] w'].
    destruct fin; reflexivity.
  - unfold call_transcribe, call. simpl.
    destruct (transcribe _ _ _) as [[t|e] w']; reflexivity.
Qed.

Lemma windows_of_app evs1 evs2 :
  windows_of (evs1 ++ evs2) = windows_of evs1 ++ windows_of evs2.
Proof. unfold windows_of. apply flat_map_app. Qed.

Lemma windows_of_calls evs : windows_of (calls evs) = windows_of evs.
Proof.
  induction evs as [|ev evs IH]; [reflexivity|].
  destruct ev; simpl; now rewrite ?IH.
Qed.

Lemma transcribe_window_no_windows a w :
  windows_of (trace (snd (transcribe_window self a (fresh w)))) = [].
Proof.
  unfold transcribe_window. destruct (stream self).
  - unfold _sim_transcribe_stream, bind, start_and_join_transcription.
    simpl. destruct (transcribe_stream _ _ _ _) as [[[fin aq] tq] w'].
    destruct fin; reflexivity.
  - unfold call_transcribe, call. simpl.
    destruct (transcribe _ _ _) as [[t|e] w']; reflexivity.
Qed.

(** X10. Over [k] rounds of not-interrupt words the budget is spent window
    by window.  The run recorded [k] captured windows; the budget left is
    the initial one minus [len(audio) / 16000] of each of these windows,
    subtracted in turn; and each call of [record_interruption] was given the
    budget that the windows captured before it had left. *)
Theorem false_alarms_budgets k : forall T st T' st',
  false_alarms self ext k T st = Some (T', st') ->
  exists evs,
    st' = after st evs (world st')
    /\ List.length (windows_of evs) = k
    /\ T' = spend T (windows_of evs)
    /\ budgets evs = offered T (windows_of evs).
Proof.
  induction k as [|k IH]; intros T st T' st' H; simpl in H.
  - injection H as <- <-. exists []. rewrite after_nil. auto.
  - destruct (PrimFloat.ltb 0 T); [|discriminate].
    destruct (interrupt_body self ext T st) as [[[T1|v]| e | | ] st1] eqn:Hb;
      try discriminate.
    destruct (interrupt_body_continue_inv _ _ _ _ Hb)
      as (a & w1 & txt & st2 & Hcap & Htr & Hm & ->).
    destruct (interrupt_body_window T st a w1 txt st2 Hcap Htr)
      as (evs1 & Hb' & Hc).
    rewrite Hb' in Hb. injection Hb as _ <-.
    destruct (IH _ _ _ _ H) as (evs2 & Hst & Hlen & -> & Hbud).
    assert (Hw1 : windows_of evs1 = [a]).
    { rewrite <- windows_of_calls, Hc. simpl. rewrite windows_of_calls.
      pose proof (transcribe_window_no_windows a w1) as Hn.
      rewrite Htr in Hn. simpl in Hn. now rewrite Hn. }
    assert (Hb1 : budgets evs1 = [T]).
    { rewrite <- budgets_calls, Hc. simpl. rewrite budgets_calls.
      pose proof (transcribe_window_no_budget a w1) as Hn.
      rewrite Htr in Hn. simpl in Hn. now rewrite Hn. }
    exists (evs1 ++ evs2). rewrite Hst at 1. rewrite after_after.
    rewrite windows_of_app, Hw1, budgets_app, Hb1, Hbud.
    unfold duration_of. simpl. rewrite Hlen. auto.
Qed.

(** ** An integration without the capability *)

(** X11. On an integration that does not override [transcribe], [_listen]
    makes its first capture and then raises [NotImplementedError]: the
    audio is recorded before the missing capability is noticed, and nothing
    is segmented. *)
Theorem listen_unimplemented st a w1 :
  transcribe_impl self = None ->
  record_user ext (silence_seconds self) (vad self) (listener self)
    false (logger self) (world st) = (Ok a, w1) ->
  exists evs,
    _listen self ext st = (Raise not_implemented, after st evs w1)
    /\ calls evs =
         [EvRecordUser (silence_seconds self) false (Ok a);
          EvTranscribe a (Exn not_implemented)].
Proof.
  intros Himpl Hrec.
  assert (Htr : transcribe self a w1 = (Exn not_implemented, w1))
    by (unfold transcribe; now rewrite Himpl).
  unfold _listen. simpl Z.to_nat. change (Pos.to_nat 2) with 2%nat.
  unfold bind at 1.
  rewrite listen_loop_enter by (simpl; lia || reflexivity).
  unfold bind at 1. unfold listen_body, call_transcribe.
  step_call Hrec. step_log l1 Hl1. unfold bind at 1.
  match goal with
  | |- context [call ?f ?mk ?s] => rewrite (call_exn f mk s _ _ Htr)
  end.
  rewrite after_after. eexists. split; [reflexivity|].
  rewrite !calls_app, Hl1. reflexivity.
Qed.

(** X12. On an integration without the capability of its mode, a round of
    [interrupt_listen] that captured a window does not end well: in batch
    mode the call raises [NotImplementedError]; in streaming mode the
    exception ends the worker thread, no sentinel is ever put, and the call
    blocks for ever. *)
Theorem interrupt_unimplemented fuel T st a w1 :
  listen_interruptions self = true ->
  PrimFloat.ltb 0 T = true ->
  record_interruption ext (vad self) T (listener self) (logger self)
    (world st) = (Ok (Some a), w1) ->
  (stream self = false -> transcribe_impl self = None ->
   exists evs,
     interrupt_listen self ext (S fuel) T st
     = (Raise not_implemented, after st evs w1)
     /\ calls evs =
          [EvRecordInterruption T (Ok (Some a));
           EvTranscribe a (Exn not_implemented)])
  /\ (stream self = true -> transcribe_stream_impl self = None ->
      exists evs,
        interrupt_listen self ext (S fuel) T st = (Blocks, after st evs w1)
        /\ calls evs =
             [EvRecordInterruption T (Ok (Some a));
              EvTranscribeStream [Some (astype_int16_tobytes a); None] []
                (Failed not_implemented)]).
Proof.
  intros Hon Hpos Hcap. split.
  - intros Hstream Himpl.
    assert (Htr : transcribe self a w1 = (Exn not_implemented, w1))
      by (unfold transcribe; now rewrite Himpl).
    rewrite interrupt_listen_on by assumption.
    rewrite interrupt_loop_enter by assumption.
    unfold bind at 1. unfold interrupt_body.
    step_call Hcap. step_log l1 Hl1. unfold bind at 1.
    unfold transcribe_window. rewrite Hstream. unfold call_transcribe.
    match goal with
    | |- context [call ?f ?mk ?s] => rewrite (call_exn f mk s _ _ Htr)
    end.
    rewrite after_after. eexists. split; [reflexivity|].
    rewrite !calls_app, Hl1. reflexivity.
  - intros Hstream Himpl.
    rewrite interrupt_listen_on by assumption.
    rewrite interrupt_loop_enter by assumption.
    unfold bind at 1. unfold interrupt_body.
    step_call Hcap. step_log l1 Hl1. unfold bind at 1.
    unfold transcribe_window. rewrite Hstream.
    match goal with
    | |- context [_sim_transcribe_stream ?s ?x ?st0] =>
        rewrite (sim_transcribe_stream_run x st0
                   (Failed not_implemented)
                   [Some (astype_int16_tobytes x); None] [] w1)
          by (unfold transcribe_stream; now rewrite Himpl)
    end.
    simpl read_until_sentinel. cbv iota. rewrite after_after.
    eexists. split; [reflexivity|].
    rewrite !calls_app, Hl1. reflexivity.
Qed.

End Proofs.

(** ** The streaming loop and its workers *)

Lemma stream_joined_step a s s' :
  Stream.step a s = Some s' -> Stream.joined s -> Stream.joined s'.
Proof.
  destruct s as [m t1 t2 aq tq em].
  unfold Stream.joined, Stream.step, Stream.main_step. simpl.
  intros H J. destruct a.
  - destruct m; simpl in *.
    + now injection H as <-.
    + now injection H as <-.
    + destruct tq as [|[f|] tq]; [discriminate| |]; now injection H as <-.
    + destruct t1; try discriminate. now injection H as <-.
    + destruct t2; try discriminate. injection H as <-. simpl. auto.
    + discriminate.
  - destruct t1; try discriminate. injection H as <-. simpl.
    destruct m; auto; now destruct J.
  - destruct t1; try discriminate. injection H as <-. simpl.
    destruct m; auto; now destruct J.
  - destruct t2; try discriminate. destruct aq; try discriminate.
    injection H as <-. simpl. destruct m; auto; now destruct J.
  - destruct t2; try discriminate. injection H as <-. simpl.
    destruct m; auto; now destruct J.
  - destruct t2; try discriminate. injection H as <-. simpl.
    destruct m; auto; now destruct J.
Qed.

Lemma stream_joined_run schedule : forall s s',
  Stream.run schedule s = Some s' -> Stream.joined s -> Stream.joined s'.
Proof.
  induction schedule as [|a schedule IH]; intros s s' H J; simpl in H.
  - now injection H as <-.
  - destruct (Stream.step a s) as [s1|] eqn:Hs; [|discriminate].
    eapply IH; [exact H|]. eapply stream_joined_step; eassumption.
Qed.

(** After the return nothing is enabled: no step of the orchestrator and
    no step of an ended worker. *)
Lemma stream_returned_final a s text :
  Stream.main s = Stream.Returned text ->
  Stream.is_ended (Stream.audio_thread s) = true ->
  Stream.is_ended (Stream.transcription_thread s) = true ->
  Stream.step a s = None.
Proof.
  destruct s as [m t1 t2 aq tq em]. simpl. intros -> H1 H2.
  destruct t1; try discriminate. destruct t2; try discriminate.
  destruct a; reflexivity.
Qed.

(** C10. In every run of [_listen_stream] under every schedule of the two
    workers, once the call has returned both worker threads have ended, and
    no step of theirs can follow the return. *)
Theorem listen_stream_returns_after_workers schedule s text :
  Stream.run schedule Stream.init = Some s ->
  Stream.main s = Stream.Returned text ->
  (exists how, Stream.audio_thread s = Stream.Ended how)
  /\ (exists how, Stream.transcription_thread s = Stream.Ended how)
  /\ forall a, Stream.step a s = None.
Proof.
  intros Hrun Hret.
  assert (J : Stream.joined s).
  { eapply stream_joined_run; [exact Hrun|]. exact I. }
  unfold Stream.joined in J. rewrite Hret in J. destruct J as [J1 J2].
  split; [|split].
  - destruct (Stream.audio_thread s); try discriminate. eauto.
  - destruct (Stream.transcription_thread s); try discriminate. eauto.
  - intros a. now apply (stream_returned_final a s text).
Qed.

Lemma stream_reading_step a s s' :
  Stream.step a s = Some s' ->
  Stream.reading spaced s -> Stream.reading spaced s'.
Proof.
  destruct s as [m t1 t2 aq tq em].
  unfold Stream.reading, Stream.step, Stream.main_step. simpl.
  intros H R. destruct a.
  - destruct m; simpl in *.
    + injection H as <-. exact R.
    + injection H as <-. simpl. destruct R as [_ ->]. now exists [].
    + destruct R as (fr & -> & ->).
      destruct tq as [|[f|] tq]; [discriminate| |]; injection H as <-; simpl.
      * exists (fr ++ [f]). split; [now rewrite spaced_snoc|].
        now rewrite map_app, <- app_assoc.
      * now exists fr.
    + destruct t1; try discriminate. now injection H as <-.
    + destruct t2; try discriminate. now injection H as <-.
    + discriminate.
  - destruct t1; try discriminate. injection H as <-. exact R.
  - destruct t1; try discriminate. injection H as <-. exact R.
  - destruct t2; try discriminate. destruct aq; try discriminate.
    injection H as <-. simpl. destruct m; try exact R; now destruct R.
  - destruct t2; try discriminate. injection H as <-. simpl.
    destruct m; try (now destruct R);
      destruct R as (fr & -> & ->); exists fr;
      (split; [reflexivity|]); now rewrite <- app_assoc.
  - destruct t2; try discriminate. injection H as <-. simpl.
    destruct m; try exact R; now destruct R.
Qed.

Lemma stream_reading_run schedule : forall s s',
  Stream.run schedule s = Some s' ->
  Stream.reading spaced s -> Stream.reading spaced s'.
Proof.
  induction schedule as [|a schedule IH]; intros s s' H R; simpl in H.
  - now injection H as <-.
  - destruct (Stream.step a s) as [s1|] eqn:Hs; [|discriminate].
    eapply IH; [exact H|]. eapply stream_reading_step; eassumption.
Qed.

(** A queue that starts with the unread fragments is some fragments the
    longer reading has more of. *)
Lemma fragments_split (xs : list string) : forall ys (q r : list (option string)),
  map Some xs ++ q = map Some ys ++ None :: r ->
  exists zs, ys = xs ++ zs /\ q = map Some zs ++ None :: r.
Proof.
  induction xs as [|x xs IH]; intros ys q r H; simpl in H.
  - now exists ys.
  - destruct ys as [|y ys]; simpl in H; [discriminate|].
    injection H as -> H. destruct (IH _ _ _ H) as (zs & -> & ->).
    now exists zs.
Qed.

(** With both workers ended, the orchestrator's own steps read the queue up
    to the sentinel, pass both joins and return. *)
Lemma stream_drain fragments : forall s text rest,
  Stream.main s = Stream.AtGet text ->
  Stream.transcription_queue s = map Some fragments ++ None :: rest ->
  Stream.is_ended (Stream.audio_thread s) = true ->
  Stream.is_ended (Stream.transcription_thread s) = true ->
  exists s',
    Stream.run (repeat Stream.Main (List.length fragments + 3)) s = Some s'
    /\ Stream.main s' = Stream.Returned (text ++ spaced fragments)%string
    /\ Stream.emitted s' = Stream.emitted s.
Proof.
  induction fragments as [|f fs IH]; intros s text rest Hm Hq H1 H2.
  - destruct s as [m t1 t2 aq tq em]. simpl in *. subst m tq.
    destruct t1; try discriminate. destruct t2; try discriminate.
    eexists. split; [reflexivity|]. simpl. now rewrite append_empty_r.
  - destruct s as [m t1 t2 aq tq em]. simpl in Hm, Hq, H1, H2. subst m tq.
    change (repeat Stream.Main (List.length (f :: fs) + 3))
      with (Stream.Main :: repeat Stream.Main (List.length fs + 3)).
    cbn [Stream.run Stream.step Stream.main_step Stream.main
         Stream.transcription_queue map app].
    destruct (IH {| Stream.main := Stream.AtGet (text ++ f ++ " ");
                    Stream.audio_thread := t1;
                    Stream.transcription_thread := t2;
                    Stream.audio_queue := aq;
                    Stream.transcription_queue := map Some fs ++ None :: rest;
                    Stream.emitted := em |}
                (text ++ f ++ " ")%string rest) as (s' & Hr & Hs' & He);
      try reflexivity; try assumption.
    exists s'. split; [exact Hr|]. split; [|exact He].
    rewrite Hs'. simpl. now rewrite !string_app_assoc.
Qed.

Lemma stream_run_app sched1 : forall sched2 s s1,
  Stream.run sched1 s = Some s1 ->
  Stream.run (sched1 ++ sched2) s = Stream.run sched2 s1.
Proof.
  induction sched1 as [|a sched1 IH]; intros sched2 s s1 H; simpl in *.
  - now injection H as ->.
  - destruct (Stream.step a s); [now apply IH | discriminate].
Qed.

(** A running transcription worker can put any items, one after the
    other. *)
Lemma stream_run_puts items : forall m t1 aq tq em,
  Stream.run (map Stream.TranscriberPut items)
    {| Stream.main := m; Stream.audio_thread := t1;
       Stream.transcription_thread := Stream.Running;
       Stream.audio_queue := aq; Stream.transcription_queue := tq;
       Stream.emitted := em |}
  = Some {| Stream.main := m; Stream.audio_thread := t1;
            Stream.transcription_thread := Stream.Running;
            Stream.audio_queue := aq;
            Stream.transcription_queue := tq ++ items;
            Stream.emitted := em ++ items |}.
Proof.
  induction items as [|x items IH]; intros m t1 aq tq em; simpl.
  - now rewrite !app_nil_r.
  - rewrite IH. now rewrite <- !app_assoc.
Qed.

(** Every finite sequence of fragments, followed by the sentinel and by
    whatever else, is emitted in some run of [_listen_stream], and that run
    returns. *)
Lemma listen_stream_every_sequence fragments rest :
  exists schedule s,
    Stream.run schedule Stream.init = Some s
    /\ Stream.emitted s = map Some fragments ++ None :: rest
    /\ Stream.main s = Stream.Returned (spaced fragments).
Proof.
  set (items := map Some fragments ++ None :: rest).
  destruct (stream_drain fragments
              {| Stream.main := Stream.AtGet "";
                 Stream.audio_thread := Stream.Ended (Ok tt);
                 Stream.transcription_thread := Stream.Ended (Ok tt);
                 Stream.audio_queue := [];
                 Stream.transcription_queue := items;
                 Stream.emitted := items |} "" rest)
    as (s' & Hr & Hm & He); try reflexivity.
  exists ([Stream.Main; Stream.Main]
          ++ map Stream.TranscriberPut items
          ++ [Stream.CaptureEnd (Ok tt); Stream.TranscriberEnd (Ok tt)]
          ++ repeat Stream.Main (List.length fragments + 3)), s'.
  split; [|split; [exact He | exact Hm]].
  rewrite (stream_run_app [Stream.Main; Stream.Main] _ Stream.init _ eq_refl).
  rewrite (stream_run_app _ _ _ _ (stream_run_puts items _ _ _ _ _)).
  exact Hr.
Qed.

(** C3 (amended). When the transcription worker has put the fragments
    [fragments], then the sentinel, then possibly more, on the transcription
    queue, a returned [_listen_stream] has returned the fragments before the
    sentinel, in the order they were put, each followed by one space; and
    once both workers have ended, the orchestrator's remaining steps do
    return that text. *)
Theorem listen_stream_returns_spaced schedule s fragments rest :
  Stream.run schedule Stream.init = Some s ->
  Stream.emitted s = map Some fragments ++ None :: rest ->
  (forall text, Stream.main s = Stream.Returned text -> text = spaced fragments)
  /\ (Stream.is_ended (Stream.audio_thread s) = true ->
      Stream.is_ended (Stream.transcription_thread s) = true ->
      exists k s',
        Stream.run (repeat Stream.Main k) s = Some s'
        /\ Stream.main s' = Stream.Returned (spaced fragments)).
Proof.
  intros Hrun Hem.
  assert (R : Stream.reading spaced s).
  { eapply stream_reading_run; [exact Hrun|]. split; reflexivity. }
  unfold Stream.reading in R. split.
  - intros text Hret. rewrite Hret in R. destruct R as (fr & -> & R).
    rewrite Hem in R. now destruct (fragments_unique _ _ _ _ R) as [-> _].
  - intros H1 H2. destruct (Stream.main s) eqn:Hm.
    + destruct R as [R _]. rewrite R in H2. discriminate.
    + destruct R as [R _]. rewrite R in H2. discriminate.
    + destruct R as (fr & -> & R). rewrite Hem in R. symmetry in R.
      destruct (fragments_split _ _ _ _ R) as (zs & -> & Hq).
      destruct (stream_drain zs s (spaced fr) rest Hm Hq H1 H2)
        as (s' & Hr & Hs' & _).
      exists (List.length zs + 3)%nat, s'. split; [exact Hr|].
      now rewrite spaced_app.
    + destruct R as (fr & -> & R). rewrite Hem in R.
      destruct (fragments_unique _ _ _ _ R) as [-> _].
      destruct s as [m t1 t2 aq tq em]. simpl in *. subst m.
      destruct t1; try discriminate. destruct t2; try discriminate.
      exists 2%nat. eexists. split; reflexivity.
    + destruct R as (fr & -> & R). rewrite Hem in R.
      destruct (fragments_unique _ _ _ _ R) as [-> _].
      destruct s as [m t1 t2 aq tq em]. simpl in *. subst m.
      destruct t2; try discriminate.
      exists 1%nat. eexists. split; reflexivity.
    + destruct R as (fr & -> & R). rewrite Hem in R.
      destruct (fragments_unique _ _ _ _ R) as [-> _].
      exists 0%nat, s. split; [reflexivity|exact Hm].
Qed.

(** X13. A call of [_listen_stream] that has returned has read the
    transcription queue up to the first sentinel and no further: a sentinel
    was emitted, the text is made of the fragments before it, and all that
    was emitted after it is still in the queue.  As long as no sentinel has
    been emitted the orchestrator is not past its reading loop. *)
Theorem listen_stream_reads_to_first_sentinel schedule s :
  Stream.run schedule Stream.init = Some s ->
  (forall text,
     Stream.main s = Stream.Returned text ->
     exists fragments,
       Stream.emitted s
       = map Some fragments ++ None :: Stream.transcription_queue s
       /\ text = spaced fragments)
  /\ (~ In None (Stream.emitted s) ->
      match Stream.main s with
      | Stream.AtJoinAudio _ | Stream.AtJoinTranscription _
      | Stream.Returned _ => False
      | _ => True
      end).
Proof.
  intros Hrun.
  assert (R : Stream.reading spaced s).
  { eapply stream_reading_run; [exact Hrun|]. split; reflexivity. }
  unfold Stream.reading in R. split.
  - intros text Hret. rewrite Hret in R. destruct R as (fr & -> & R).
    now exists fr.
  - intros Hno. destruct (Stream.main s); try exact I;
      destruct R as (fr & _ & R); apply Hno; rewrite R;
      apply in_or_app; right; now left.
Qed.

(** An ended transcription worker emits nothing more. *)
Lemma stream_ended_step a s s' how :
  Stream.step a s = Some s' ->
  Stream.reading spaced s ->
  Stream.transcription_thread s = Stream.Ended how ->
  Stream.transcription_thread s' = Stream.Ended how
  /\ Stream.emitted s' = Stream.emitted s.
Proof.
  destruct s as [m t1 t2 aq tq em]. unfold Stream.reading. simpl.
  intros H R ->. destruct a; simpl in H.
  - unfold Stream.main_step in H. simpl in H. destruct m; simpl in H.
    + now destruct R.
    + now destruct R.
    + destruct tq as [|[f|] tq]; [discriminate| |]; now injection H as <-.
    + destruct t1; try discriminate. now injection H as <-.
    + now injection H as <-.
    + discriminate.
  - destruct t1; try discriminate. now injection H as <-.
  - destruct t1; try discriminate. now injection H as <-.
  - discriminate.
  - discriminate.
  - discriminate.
Qed.

Lemma stream_ended_run schedule : forall s s' how,
  Stream.run schedule s = Some s' ->
  Stream.reading spaced s ->
  Stream.transcription_thread s = Stream.Ended how ->
  Stream.emitted s' = Stream.emitted s.
Proof.
  induction schedule as [|a schedule IH]; intros s s' how H R He; simpl in H.
  - now injection H as <-.
  - destruct (Stream.step a s) as [s1|] eqn:Hs; [|discriminate].
    destruct (stream_ended_step _ _ _ _ Hs R He) as [He1 Hem].
    rewrite <- Hem. apply (IH s1 s' how); try assumption.
    eapply stream_reading_step; eassumption.
Qed.

(** X14. A transcription worker that ends before it has put a sentinel
    (because its target raised, or returned too early) leaves
    [_listen_stream] waiting for ever: no schedule from there on brings the
    call to its return. *)
Theorem listen_stream_hangs_without_sentinel schedule s how more s' text :
  Stream.run schedule Stream.init = Some s ->
  Stream.transcription_thread s = Stream.Ended how ->
  ~ In None (Stream.emitted s) ->
  Stream.run more s = Some s' ->
  Stream.main s' <> Stream.Returned text.
Proof.
  intros Hrun Hend Hno Hmore Hret.
  assert (R0 : Stream.reading spaced s).
  { eapply stream_reading_run; [exact Hrun|]. split; reflexivity. }
  assert (R : Stream.reading spaced s').
  { eapply stream_reading_run; [exact Hmore | exact R0]. }
  unfold Stream.reading in R. rewrite Hret in R. destruct R as (fr & _ & R).
  apply Hno. rewrite <- (stream_ended_run more s s' how Hmore R0 Hend), R.
  apply in_or_app. right. now left.
Qed.

(** ** The theorems at work on collaborators that can be run *)


(** C2, on collaborators that can be run. *)
Lemma listen_one_round_on_boundary_witness :
  exists evs,
    _listen (Demo.ear false None "Done. Next")
            (Demo.collaborators true Demo.two_spans) Demo.start
      = (Return "Done. Next", after Demo.start evs 1%nat)
    /\ calls evs =
         [EvRecordUser 2%float false (Ok (Demo.silence 1));
          EvTranscribe (Demo.silence 1) (Ok "Done. Next");
          EvSegment "Done. Next ." (Ok ["Done."; "."])].
Proof.
  apply (listen_one_round_on_boundary
           (Demo.ear false None "Done. Next")
           (Demo.collaborators true Demo.two_spans) Demo.start
           (Demo.silence 1) 1%nat "Done. Next" 1%nat ["Done."; "."] 1%nat).
  - reflexivity.
  - reflexivity.
  - reflexivity.
  - simpl. lia.
Defined.

(** C3, on the schedule of [Demo]. *)
Lemma listen_stream_returns_spaced_witness :
  (forall text,
     Stream.main Demo.final = Stream.Returned text -> text = spaced ["a"; "b"])
  /\ (Stream.is_ended (Stream.audio_thread Demo.final) = true ->
      Stream.is_ended (Stream.transcription_thread Demo.final) = true ->
      exists k s',
        Stream.run (repeat Stream.Main k) Demo.final = Some s'
        /\ Stream.main s' = Stream.Returned (spaced ["a"; "b"])).
Proof.
  apply (listen_stream_returns_spaced Demo.schedule Demo.final
           ["a"; "b"] [Some "late"]).
  - reflexivity.
  - reflexivity.
Defined.

(** C3 as it is worded fails: after the fragments "a" and "b" the call
    returns "a b " with its trailing space, not the space-joined "a b". *)
Lemma listen_stream_not_space_joined :
  Stream.run Demo.schedule Stream.init = Some Demo.final
  /\ Stream.emitted Demo.final = map Some ["a"; "b"] ++ None :: [Some "late"]
  /\ Stream.main Demo.final = Stream.Returned "a b "
  /\ "a b " <> space_joined ["a"; "b"].
Proof. repeat split; try reflexivity. discriminate. Qed.

(** C4, on a model that emits two fragments. *)
Lemma sim_transcribe_stream_spaced_witness :
  _sim_transcribe_stream Demo.two_fragment_ear (Demo.silence 1) Demo.start =
    (Return "a b ",
     after Demo.start
       [EvTranscribeStream [Some [Byte.x00; Byte.x00]; None]
          [Some "a"; Some "b"; None] Done] O).
Proof.
  apply (proj1 (proj2 (sim_transcribe_stream_spaced Demo.two_fragment_ear
                         (Demo.silence 1) Demo.start Done []
                         [Some "a"; Some "b"; None] O eq_refl))
           ltac:(discriminate) ["a"; "b"] [] eq_refl).
Defined.

(** C4 as it is worded fails: the result of the fragments "a" and "b" is
    "a b ", not their concatenation "ab". *)
Lemma sim_transcribe_stream_not_concatenated :
  transcribe_stream Demo.two_fragment_ear
    [Some (astype_int16_tobytes (Demo.silence 1)); None] [] O
    = (Done, [], map Some ["a"; "b"] ++ [None], O)
  /\ fst (_sim_transcribe_stream Demo.two_fragment_ear (Demo.silence 1)
            Demo.start) = Return "a b "
  /\ "a b " <> concatenated ["a"; "b"].
Proof. repeat split; try reflexivity. discriminate. Qed.

(** C5: a window of 8000 samples heard as "Yes." under a budget of two
    seconds leaves a budget of 2 - 8000 / 16000 = 1.5 seconds. *)
Lemma interrupt_false_alarm_continues_witness :
  exists evs,
    let st3 := after Demo.start evs 1%nat in
    interrupt_body (Demo.ear false None "Yes.") Demo.half_second_windows
      2 Demo.start
      = (Return (Continue 1.5), st3)
    /\ calls evs =
         [EvRecordInterruption 2 (Ok (Some (Demo.silence (8 * 1000))));
          EvTranscribe (Demo.silence (8 * 1000)) (Ok "Yes.")]
    /\ interrupt_loop (Demo.ear false None "Yes.") Demo.half_second_windows
         2 2 Demo.start
       = interrupt_loop (Demo.ear false None "Yes.") Demo.half_second_windows
           1 1.5 st3
    /\ (PrimFloat.ltb 0 1.5 = false ->
        interrupt_loop (Demo.ear false None "Yes.") Demo.half_second_windows
          1 1.5 st3
        = (Return VNone, st3))
    /\ (PrimFloat.ltb 0 1.5 = true ->
        forall fuel', 1%nat = S fuel' ->
        interrupt_loop (Demo.ear false None "Yes.") Demo.half_second_windows
          1 1.5 st3 =
          bind (interrupt_body (Demo.ear false None "Yes.")
                  Demo.half_second_windows 1.5)
            (fun c => match c with
                      | Continue T'' =>
                          interrupt_loop (Demo.ear false None "Yes.")
                            Demo.half_second_windows fuel' T''
                      | Break v => ret v
                      end) st3).
Proof.
  exact (interrupt_false_alarm_continues (Demo.ear false None "Yes.")
           Demo.half_second_windows 1 2 Demo.start
           (Demo.silence (8 * 1000)) 1%nat "Yes."
           (@Build_state Demo.platform 1%nat
              [EvTranscribe (Demo.silence (8 * 1000)) (Ok "Yes.")])
           eq_refl eq_refl eq_refl eq_refl).
Defined.

(** C6: the window "Stop now!". *)
Lemma interrupt_genuine_returns_normalized_witness :
  exists evs,
    interrupt_listen (Demo.ear false None "Stop now!")
      (Demo.collaborators true Demo.one_span) 1 100 Demo.start
      = (Return (VStr "stop now"), after Demo.start evs 1%nat)
    /\ calls evs =
         EvRecordInterruption 100 (Ok (Some (Demo.silence (16 * 1000))))
         :: calls (trace (Demo.heard "Stop now!"))
    /\ truthy (VStr "stop now") = true.
Proof.
  apply (interrupt_genuine_returns_normalized (Demo.ear false None "Stop now!")
           (Demo.collaborators true Demo.one_span) 0 100 Demo.start
           (Demo.silence (16 * 1000)) 1%nat "Stop now!"
           (Demo.heard "Stop now!")).
  - reflexivity.
  - reflexivity.
  - reflexivity.
  - reflexivity.
  - reflexivity.
Defined.

(** C6 as it is worded fails: a window transcribed as "?!" is no
    not-interrupt word, so the call takes the branch of a genuine
    interruption, and what it returns is the empty string, which is falsy. *)
Lemma interrupt_genuine_can_be_empty :
  Text.member (Text.normalize "?!")
    (not_interrupt_words (Demo.ear false None "?!")) = false
  /\ fst (interrupt_listen (Demo.ear false None "?!")
            (Demo.collaborators true Demo.one_span) 1 100 Demo.start)
     = Return (VStr "")
  /\ truthy (VStr "") = false.
Proof. repeat split; reflexivity. Qed.

(** C7: a switched-off ear, and a capture that reports nothing. *)
Lemma interrupt_early_exits_witness :
  interrupt_listen Demo.deaf_ear (Demo.collaborators true Demo.one_span)
    1 default_record_seconds Demo.start = (Return (VBool false), Demo.start)
  /\ interrupt_listen (Demo.ear false None "stop")
       (Demo.collaborators false Demo.one_span) 1 default_record_seconds
       Demo.start
     = (Return (VStr ""),
        after Demo.start
          [EvRecordInterruption default_record_seconds (Ok None)] 1%nat).
Proof.
  split.
  - apply (proj1 (interrupt_early_exits Demo.deaf_ear
                    (Demo.collaborators true Demo.one_span))).
    reflexivity.
  - apply (proj1 (proj2 (interrupt_early_exits (Demo.ear false None "stop")
                           (Demo.collaborators false Demo.one_span)))).
    + reflexivity.
    + reflexivity.
    + reflexivity.
Defined.

(** C7 as it is worded fails: with listening switched on, a window is
    captured (the capture does not report nothing) and transcribed as "?!",
    and the call leaves the loop early by [return text] with the empty
    string, a falsy value, on a path that is neither of the two named. *)
Lemma interrupt_third_falsy_exit :
  listen_interruptions (Demo.ear false None "?!") = true
  /\ interrupt_listen (Demo.ear false None "?!")
       (Demo.collaborators true Demo.one_span) 1 default_record_seconds
       Demo.start
     = (Return (VStr ""),
        after Demo.start
          [EvRecordInterruption default_record_seconds
             (Ok (Some (Demo.silence (16 * 1000))));
           EvTranscribe (Demo.silence (16 * 1000)) (Ok "?!")] 1%nat)
  /\ truthy (VStr "") = false.
Proof. repeat split; reflexivity. Qed.

(** C8: two windows "yes" of one second each use up a budget of two
    seconds. *)
Lemma interrupt_budget_exhausted_returns_none_witness :
  exists st',
    interrupt_listen (Demo.ear false None "yes")
      (Demo.collaborators true Demo.one_span) 2 2 Demo.start
      = (Return VNone, st')
    /\ world st' = 2%nat.
Proof.
  eexists. split.
  - apply (interrupt_budget_exhausted_returns_none (Demo.ear false None "yes")
             (Demo.collaborators true Demo.one_span) 2 2 2 Demo.start 0).
    + reflexivity.
    + reflexivity.
    + reflexivity.
    + lia.
  - reflexivity.
Defined.



(** C10, on the schedule of [Demo]. *)
Lemma listen_stream_returns_after_workers_witness :
  (exists how, Stream.audio_thread Demo.final = Stream.Ended how)
  /\ (exists how, Stream.transcription_thread Demo.final = Stream.Ended how)
  /\ forall a, Stream.step a Demo.final = None.
Proof.
  apply (listen_stream_returns_after_workers Demo.schedule Demo.final "a b ").
  - reflexivity.
  - reflexivity.
Defined.

(** ** Further runs *)

(** The example of the specification: two rounds, the second transcript
    returned. *)
Example listen_spec_example :
  fst (_listen Demo.hello_ear (Demo.collaborators true Demo.hello_spans)
         Demo.start) = Return "Hello there, how are you"
  /\ List.length
       (calls (trace (snd (_listen Demo.hello_ear
                             (Demo.collaborators true Demo.hello_spans)
                             Demo.start)))) = 6%nat.
Proof. split; reflexivity. Qed.

(** On [BaseEar] itself in streaming mode the [NotImplementedError] ends the
    worker thread, nothing is ever put on the transcription queue, and the
    caller waits for ever. *)
Example sim_transcribe_stream_base_blocks :
  fst (_sim_transcribe_stream (Demo.base_ear true) (Demo.silence 1) Demo.start)
  = Blocks.
Proof. reflexivity. Qed.

(** In [_listen_stream] too a worker that ends by an exception is joined
    like any other, and the call returns. *)
Example listen_stream_worker_exception :
  Stream.run
    [Stream.Main; Stream.Main; Stream.TranscriberPut None;
     Stream.TranscriberEnd (Exn (OtherError "model crashed"));
     Stream.CaptureEnd (Ok tt); Stream.Main; Stream.Main; Stream.Main]
    Stream.init
  = Some {| Stream.main := Stream.Returned "";
            Stream.audio_thread := Stream.Ended (Ok tt);
            Stream.transcription_thread :=
              Stream.Ended (Exn (OtherError "model crashed"));
            Stream.audio_queue := [];
            Stream.transcription_queue := [];
            Stream.emitted := [None] |}.
Proof. reflexivity. Qed.

(** ** The further theorems at work *)

(** X3: punctuation and whitespace only. *)
Lemma normalize_empty_iff_witness : Text.normalize " ?! ... " = "".
Proof. apply (proj2 (normalize_empty_iff " ?! ... ")). reflexivity. Defined.

(** X4: the example of the specification has the second shape. *)
Lemma listen_returns_inv_witness :
  exists evs,
    snd (_listen Demo.hello_ear (Demo.collaborators true Demo.hello_spans)
           Demo.start)
    = after Demo.start evs 2%nat
    /\ ((exists a1 s1,
           calls evs =
             [EvRecordUser 2%float false (Ok a1);
              EvTranscribe a1 (Ok "Hello there, how are you");
              EvSegment "Hello there, how are you ." (Ok s1)]
           /\ (1 < List.length s1)%nat)
        \/ (exists a1 t1 s1 a2 s2,
              calls evs =
                [EvRecordUser 2%float false (Ok a1);
                 EvTranscribe a1 (Ok t1);
                 EvSegment (t1 ++ " .") (Ok s1);
                 EvRecordUser 2%float true (Ok a2);
                 EvTranscribe (a1 ++ a2) (Ok "Hello there, how are you");
                 EvSegment "Hello there, how are you ." (Ok s2)]
              /\ (List.length s1 <= 1)%nat)).
Proof.
  apply (listen_returns_inv Demo.hello_ear
           (Demo.collaborators true Demo.hello_spans) Demo.start
           "Hello there, how are you"
           (snd (_listen Demo.hello_ear
                   (Demo.collaborators true Demo.hello_spans) Demo.start))).
  reflexivity.
Defined.

(** X7: two fragments in streaming mode. *)
Lemma interrupt_stream_round_decides_on_joined_witness :
  exists evs,
    interrupt_body Demo.two_fragment_ear
      (Demo.collaborators true Demo.one_span) 100 Demo.start
    = (Return (Break (VStr "a b")), after Demo.start evs 1%nat)
    /\ calls evs =
         [EvRecordInterruption 100 (Ok (Some (Demo.silence (16 * 1000))));
          EvTranscribeStream
            [Some (astype_int16_tobytes (Demo.silence (16 * 1000))); None]
            [Some "a"; Some "b"; None] Done].
Proof.
  apply (interrupt_stream_round_decides_on_joined Demo.two_fragment_ear
           (Demo.collaborators true Demo.one_span) 100 Demo.start
           (Demo.silence (16 * 1000)) 1%nat Done [] ["a"; "b"] [] 1%nat).
  - reflexivity.
  - reflexivity.
  - reflexivity.
  - discriminate.
Defined.

(** X8: the window "Stop now!". *)
Lemma interrupt_listen_returns_witness :
  listen_interruptions (Demo.ear false None "Stop now!") = true
  /\ ("stop now" = ""
      \/ (Text.member "stop now"
            (not_interrupt_words (Demo.ear false None "Stop now!")) = false
          /\ exists txt, "stop now" = Text.normalize txt)).
Proof.
  apply (interrupt_listen_returns (Demo.ear false None "Stop now!")
           (Demo.collaborators true Demo.one_span) 1 100 Demo.start
           (VStr "stop now")
           (snd (interrupt_listen (Demo.ear false None "Stop now!")
                   (Demo.collaborators true Demo.one_span) 1 100 Demo.start))).
  reflexivity.
Defined.

(** X9: empty windows heard as "you" under the default budget. *)
Lemma interrupt_absorbed_budget_never_ends_witness :
  fst (interrupt_listen (Demo.ear false None "you") Demo.empty_windows
         1000 default_record_seconds Demo.start) = OutOfFuel.
Proof.
  apply (interrupt_absorbed_budget_never_ends (Demo.ear false None "you")
           Demo.empty_windows default_record_seconds (Demo.silence 0)).
  - reflexivity.
  - reflexivity.
  - reflexivity.
  - intros w. eexists. reflexivity.
  - intros w. eexists _, _. split; reflexivity.
Defined.

(** X10: two windows of half a second under a budget of one second. *)
Lemma false_alarms_budgets_witness :
  exists evs,
    snd (interrupt_listen (Demo.ear false None "yes")
           Demo.half_second_windows 2 1 Demo.start)
    = after Demo.start evs 2%nat
    /\ List.length (windows_of evs) = 2%nat
    /\ 0%float = spend 1 (windows_of evs)
    /\ budgets evs = offered 1 (windows_of evs).
Proof.
  apply (false_alarms_budgets (Demo.ear false None "yes")
           Demo.half_second_windows 2 1 Demo.start 0%float
           (snd (interrupt_listen (Demo.ear false None "yes")
                   Demo.half_second_windows 2 1 Demo.start))).
  reflexivity.
Defined.

(** The same run in numbers: the captures were offered 1 and then 0.5
    seconds. *)
Example false_alarms_budgets_numbers :
  budgets (trace (snd (interrupt_listen (Demo.ear false None "yes")
                         Demo.half_second_windows 2 1 Demo.start)))
  = [1%float; 0.5%float]
  /\ windows_of (trace (snd (interrupt_listen (Demo.ear false None "yes")
                              Demo.half_second_windows 2 1 Demo.start)))
     = [Demo.silence (8 * 1000); Demo.silence (8 * 1000)]
  /\ fst (interrupt_listen (Demo.ear false None "yes")
            Demo.half_second_windows 2 1 Demo.start) = Return VNone.
Proof. repeat split; reflexivity. Qed.

(** X11: [BaseEar] itself in batch mode. *)
Lemma listen_unimplemented_witness :
  exists evs,
    _listen (Demo.base_ear false) (Demo.collaborators true Demo.one_span)
      Demo.start
    = (Raise not_implemented, after Demo.start evs 1%nat)
    /\ calls evs =
         [EvRecordUser 2%float false (Ok (Demo.silence 1));
          EvTranscribe (Demo.silence 1) (Exn not_implemented)].
Proof.
  apply (listen_unimplemented (Demo.base_ear false)
           (Demo.collaborators true Demo.one_span) Demo.start
           (Demo.silence 1) 1%nat).
  - reflexivity.
  - reflexivity.
Defined.

(** X12: [BaseEar] itself in streaming mode. *)
Lemma interrupt_unimplemented_witness :
  exists evs,
    interrupt_listen (Demo.base_ear true)
      (Demo.collaborators true Demo.one_span) 1 default_record_seconds
      Demo.start
    = (Blocks, after Demo.start evs 1%nat)
    /\ calls evs =
         [EvRecordInterruption default_record_seconds
            (Ok (Some (Demo.silence (16 * 1000))));
          EvTranscribeStream
            [Some (astype_int16_tobytes (Demo.silence (16 * 1000))); None] []
            (Failed not_implemented)].
Proof.
  apply (proj2 (interrupt_unimplemented (Demo.base_ear true)
                  (Demo.collaborators true Demo.one_span) 0
                  default_record_seconds Demo.start
                  (Demo.silence (16 * 1000)) 1%nat
                  eq_refl eq_refl eq_refl)).
  - reflexivity.
  - reflexivity.
Defined.

(** X13, on the schedule of [Demo]. *)
Lemma listen_stream_reads_to_first_sentinel_witness :
  exists fragments,
    Stream.emitted Demo.final
    = map Some fragments ++ None :: Stream.transcription_queue Demo.final
    /\ "a b " = spaced fragments.
Proof.
  apply (proj1 (listen_stream_reads_to_first_sentinel Demo.schedule Demo.final
                  eq_refl) "a b ").
  reflexivity.
Defined.

(** X14: the worker of [BaseEar] has raised; the orchestrator cannot even
    take a step. *)
Lemma listen_stream_hangs_without_sentinel_witness :
  Stream.main Demo.dead <> Stream.Returned "".
Proof.
  apply (listen_stream_hangs_without_sentinel Demo.dead_schedule Demo.dead
           (Exn not_implemented) [] Demo.dead "").
  - reflexivity.
  - reflexivity.
  - intros [].
  - reflexivity.
Defined.
